(** * A priority queue on an unbalanced binary search tree (pq.py)

    The tree core of pq.py is persistent: [insert] and [remove] never write
    to a node, they allocate the nodes of the search path and reuse the
    other subtrees.  A value of Python type [Optional[Node[T]]] is therefore
    embedded as a value of the inductive type [Tree]: [Empty] is [None] and
    [Node value left right] is the dataclass of the same name.  Equality of
    trees is equality of their values, the [==] of the dataclass.

    [SearchTree] and [PriorityQueue] objects are mutable: each holds one
    field [root], reassigned by its methods.  They live in a store indexed
    by object identity, and every method is a computation over that store
    which may return, raise, or run out of fuel in an unbounded loop. *)

From stdpp Require Import base list sorting.

(** ** Values: the protocol [Ordered] *)

(** [class Ordered(Protocol)] asks for [__lt__] only.  pq.py also writes
    [val > tree.value]; on a type that defines [__lt__] alone Python
    evaluates it with the operands swapped, [tree.value < val]. *)
Class Ordered (T : Type) := ltb : T → T → bool.

(** What the specification calls a totally ordered type. *)
Class StrictTotal (T : Type) `{Ordered T} : Prop := {
  ltb_irrefl (a : T) : ltb a a = false;
  ltb_trans (a b c : T) : ltb a b = true → ltb b c = true → ltb a c = true;
  ltb_total (a b : T) : ltb a b = false → ltb b a = false → a = b
}.

#[export] Instance nat_ordered : Ordered nat := Nat.ltb.

#[export] Instance nat_strict_total : StrictTotal nat.
Proof.
  split; unfold ltb, nat_ordered; intros.
  - apply Nat.ltb_irrefl.
  - apply Nat.ltb_lt. apply Nat.ltb_lt in H, H0. lia.
  - apply Nat.ltb_ge in H, H0. lia.
Qed.

(** ** Trees *)

Inductive Tree (T : Type) : Type :=
  | Empty : Tree T
  | Node (value : T) (left right : Tree T) : Tree T.

Arguments Empty {T}.
Arguments Node {T} value left right.

(** The exceptions of pq.py: an attribute read on [None] ([tree.left] and
    [tree.right] in [leftmost] and [rightmost]), a failed [assert], and a
    list index out of range. *)
Inductive exn : Set := AttributeError | AssertionError | IndexError.

Section TreeCore.
Context {T : Type} `{Ordered T}.

Fixpoint contains (tree : Tree T) (val : T) : bool :=
  match tree with
  | Empty => false
  | Node v l r =>
      if ltb val v then contains l val
      else if ltb v val then contains r val
      else true
  end.

Fixpoint insert (tree : Tree T) (val : T) : Tree T :=
  match tree with
  | Empty => Node val Empty Empty
  | Node v l r =>
      if ltb val v then Node v (insert l val) r
      else if ltb v val then Node v l (insert r val)
      else tree
  end.

(** [rightmost] and [leftmost] take a [Node[T]].  The loop
    [while tree.right: tree = tree.right] started at a node with the given
    value and right child: *)
Fixpoint rightmost_node (value : T) (right : Tree T) : T :=
  match right with
  | Empty => value
  | Node v _ r => rightmost_node v r
  end.

Fixpoint leftmost_node (value : T) (left : Tree T) : T :=
  match left with
  | Empty => value
  | Node v l _ => leftmost_node v l
  end.

(** Called on a [Tree[T]]: on [None] the first attribute read raises. *)
Definition rightmost (tree : Tree T) : exn + T :=
  match tree with
  | Empty => inl AttributeError
  | Node v _ r => inr (rightmost_node v r)
  end.

Definition leftmost (tree : Tree T) : exn + T :=
  match tree with
  | Empty => inl AttributeError
  | Node v l _ => inr (leftmost_node v l)
  end.

Fixpoint remove (tree : Tree T) (val : T) : Tree T :=
  match tree with
  | Empty => Empty
  | Node v l r =>
      if ltb val v then Node v (remove l val) r
      else if ltb v val then Node v l (remove r val)
      else
        match l, r with
        | Empty, _ => r
        | _, Empty => l
        | Node lv _ lr, Node _ _ _ =>
            let rm_val := rightmost_node lv lr in
            Node rm_val (remove l rm_val) r
        end
  end.

Fixpoint iterate (tree : Tree T) : list T :=
  match tree with
  | Empty => []
  | Node v l r => iterate l ++ v :: iterate r
  end.

(** The BST order invariant of the data model, as a check. *)
Fixpoint is_bst (tree : Tree T) : bool :=
  match tree with
  | Empty => true
  | Node v l r =>
      forallb (λ a, ltb a v) (iterate l)
      && forallb (λ a, ltb v a) (iterate r)
      && is_bst l && is_bst r
  end.

End TreeCore.

(** ** The store of container objects *)

(** A [SearchTree] or [PriorityQueue] object is known by its identity, an
    index into the store; the store holds the [root] field of each object.
    Two names for one object are two equal references. *)
Abbreviation ref := nat (only parsing).

Inductive outcome (S A : Type) : Type :=
  | Done (a : A) (s : S)        (* returned [a], store is now [s] *)
  | Raised (e : exn) (s : S)    (* an exception left the call *)
  | OutOfFuel                   (* a [while] loop used up its fuel *)
  | Stuck.                      (* a reference that was never allocated *)

Arguments Done {S A} a s.
Arguments Raised {S A} e s.
Arguments OutOfFuel {S A}.
Arguments Stuck {S A}.

Definition M (T A : Type) : Type := list (Tree T) → outcome (list (Tree T)) A.

Section Monad.
Context {T : Type}.

Definition ret {A} (a : A) : M T A := λ σ, Done a σ.

Definition bind {A B} (c : M T A) (k : A → M T B) : M T B :=
  λ σ, match c σ with
       | Done a σ' => k a σ'
       | Raised e σ' => Raised e σ'
       | OutOfFuel => OutOfFuel
       | Stuck => Stuck
       end.

Definition raise {A} (e : exn) : M T A := λ σ, Raised e σ.

(** A call of a tree-core function that may raise. *)
Definition call {A} (r : exn + A) : M T A :=
  match r with inl e => raise e | inr a => ret a end.

(** [assert b] *)
Definition assert (b : bool) : M T unit :=
  if b then ret tt else raise AssertionError.

(** [self.root] *)
Definition get_root (self : ref) : M T (Tree T) :=
  λ σ, match σ !! self with Some t => Done t σ | None => Stuck end.

(** [self.root = tree] *)
Definition set_root (self : ref) (tree : Tree T) : M T unit :=
  λ σ, match σ !! self with
       | Some _ => Done tt (<[self := tree]> σ)
       | None => Stuck
       end.

(** A new object whose [root] is [tree]. *)
Definition alloc (tree : Tree T) : M T ref :=
  λ σ, Done (length σ) (σ ++ [tree]).

End Monad.

Notation "'let!' x := c 'in' k" := (bind c (λ x, k))
  (at level 10, x binder, c at level 200, k at level 200).

Section Loops.
Context {T : Type}.

(** [for x in data: body(x)] over a finite sequence. *)
Fixpoint for_each {A} (data : list A) (body : A → M T unit) : M T unit :=
  match data with
  | [] => ret tt
  | x :: data' => let! _ := body x in for_each data' body
  end.

(** [while cond: body].  [a] carries the local variables the loop
    assigns; [fuel] bounds the number of tests of [cond]. *)
Fixpoint while {A} (fuel : nat) (cond : A → M T bool) (body : A → M T A)
    (a : A) : M T A :=
  match fuel with
  | 0 => λ _, OutOfFuel
  | S fuel' =>
      let! b := cond a in
      if b : bool then let! a' := body a in while fuel' cond body a'
      else ret a
  end.

End Loops.

(** The truth value of a tree: [None] is false, a [Node] (a dataclass
    without [__bool__] or [__len__]) is true. *)
Definition truthy {T} (tree : Tree T) : bool :=
  match tree with Empty => false | Node _ _ _ => true end.

(** ** class SearchTree *)

Section SearchTree.
Context {T : Type} `{Ordered T}.

(** [__contains__] *)
Definition SearchTree_contains (self : ref) (val : T) : M T bool :=
  let! root := get_root self in ret (contains root val).

Definition SearchTree_insert (self : ref) (val : T) : M T unit :=
  let! root := get_root self in set_root self (insert root val).

Definition SearchTree_remove (self : ref) (val : T) : M T unit :=
  let! root := get_root self in set_root self (remove root val).

(** [__iter__]: the values that [iterate(self.root)] yields. *)
Definition SearchTree_iter (self : ref) : M T (list T) :=
  let! root := get_root self in ret (iterate root).

(** [__bool__] *)
Definition SearchTree_bool (self : ref) : M T bool :=
  let! root := get_root self in ret (truthy root).

(** [SearchTree(data, tree)]; [PriorityQueue] inherits it. *)
Definition SearchTree_init (data : list T) (tree : Tree T) : M T ref :=
  let! self := alloc tree in
  let! _ := for_each data (λ x, SearchTree_insert self x) in
  ret self.

Definition st_sort (x : list T) : M T (list T) :=
  let! st := SearchTree_init x Empty in SearchTree_iter st.

End SearchTree.

(** ** class PriorityQueue(SearchTree) *)

Section PriorityQueue.
Context {T : Type} `{Ordered T}.

(** The property [min_val]. *)
Definition PriorityQueue_min_val (self : ref) : M T T :=
  let! root := get_root self in call (leftmost root).

Definition PriorityQueue_delete_min (self : ref) : M T T :=
  let! minimum := PriorityQueue_min_val self in
  let! _ := SearchTree_remove self minimum in
  ret minimum.

(** [pq_sort(x)] for a sequence [x].  The local list [sorted] is the
    variable carried by the loop. *)
Definition pq_sort (fuel : nat) (x : list T) : M T (list T) :=
  let! pq := SearchTree_init x Empty in
  while fuel
    (λ _, let! root := get_root pq in ret (truthy root))
    (λ sorted, let! m := PriorityQueue_delete_min pq in ret (sorted ++ [m]))
    [].

(** [pq_sort(q)] for a container [q]: the constructor reads its argument
    through [__iter__]. *)
Definition pq_sort_of (fuel : nat) (q : ref) : M T (list T) :=
  let! data := SearchTree_iter q in pq_sort fuel data.

(** ** Merging *)

Definition general_merge (fuel : nat) (x y : ref) : M T ref :=
  let! _ :=
    while fuel
      (λ _, let! root := get_root y in ret (truthy root))
      (λ _, let! m := PriorityQueue_delete_min y in SearchTree_insert x m)
      tt in
  ret x.

(** [pq1[i]]: in range it is the element, out of range Python raises. *)
Definition index (pq : list T) (i : nat) : M T T :=
  match pq !! i with Some a => ret a | None => raise IndexError end.

(** The loop carries [i], [j] and the list [merged]. *)
Definition general_merge_persistent (fuel : nat) (x y : ref) : M T ref :=
  let! pq1 := pq_sort_of fuel x in
  let! pq2 := pq_sort_of fuel y in
  let! '(i, j, merged) :=
    while fuel
      (λ '(i, j, _), ret (bool_decide (i < length pq1)
                          && bool_decide (j < length pq2)))
      (λ '(i, j, merged),
         let! a := index pq1 i in
         let! b := index pq2 j in
         if ltb a b then ret (S i, j, merged ++ [a])
         else ret (i, S j, merged ++ [b]))
      (0, 0, []) in
  let merged := merged ++ drop i pq1 in
  let merged := merged ++ drop j pq2 in
  SearchTree_init merged Empty.

(** In [special_merge] the local [tree] is a node of the tree of [x],
    reached from [x.root] by [d] steps to the right; it is kept as [d].
    [descend_right] counts the steps of
    [while tree.right: tree = tree.right]. *)
Fixpoint descend_right (tree : Tree T) : nat :=
  match tree with
  | Node _ _ (Node _ _ _ as r) => S (descend_right r)
  | _ => 0
  end.

(** [tree.right = node] for the node [d] steps to the right of the root
    of [root]: the tree that [root] denotes after the write. *)
Fixpoint set_right (d : nat) (root node : Tree T) : Tree T :=
  match root with
  | Empty => Empty
  | Node v l r =>
      match d with
      | 0 => Node v l node
      | S d' => Node v l (set_right d' r node)
      end
  end.

(** One passage through the second loop of [special_merge], seen from the
    root: a new node holding [m] becomes the right child of the last node
    of the right spine. *)
Definition attach_right (tree : Tree T) (m : T) : Tree T :=
  set_right (descend_right tree) tree (Node m Empty Empty).

(** [special_merge] is the one function of pq.py that writes to a node:
    [tree.right = Node(...)], where [tree] is a node of the tree of [x].
    The store holds, for each object, the tree its root denotes, so the
    write is recorded as the change of the tree of [x] at the place of
    [tree].  An object other than [x] that reaches the same node (one made
    with [tree=x.root], say) would see the write as well; the store does not
    follow that, and what is proved of [special_merge] speaks of [x] and
    [y] only.  A node is reached from both [x] and [y] only if they hold a
    common value, and for search trees the assertion has failed by then. *)
Definition special_merge (fuel : nat) (x y : ref) : M T ref :=
  let! xroot := get_root x in
  let! largest_x := call (rightmost xroot) in
  let! smallest_y := PriorityQueue_min_val y in
  let! _ := assert (ltb largest_x smallest_y) in
  let! xroot := get_root x in
  let! _ :=
    while fuel
      (λ _, let! root := get_root y in ret (truthy root))
      (λ d, let! m := PriorityQueue_delete_min y in
            let! root := get_root x in
            let! _ := set_root x (set_right d root (Node m Empty Empty)) in
            ret (S d))
      (descend_right xroot) in
  ret x.

(** The two special merges begin with the same three statements;
    [checked x y rest] is that beginning followed by [rest]. *)
Definition checked (x y : ref) (rest : M T ref) : M T ref :=
  let! xroot := get_root x in
  let! largest_x := call (rightmost xroot) in
  let! smallest_y := PriorityQueue_min_val y in
  let! _ := assert (ltb largest_x smallest_y) in
  rest.

Definition special_merge_persistent (fuel : nat) (x y : ref) : M T ref :=
  let! xroot := get_root x in
  let! largest_x := call (rightmost xroot) in
  let! smallest_y := PriorityQueue_min_val y in
  let! _ := assert (ltb largest_x smallest_y) in
  let! pq1 := pq_sort_of fuel x in
  let! pq2 := pq_sort_of fuel y in
  SearchTree_init (pq1 ++ pq2) Empty.

End PriorityQueue.

(** ** The words of the specification *)

Section SpecWords.
Context {T : Type} `{Ordered T}.

(** [a] is strictly below [b]. *)
Definition less (a b : T) : Prop := ltb a b = true.

(** The strictly ascending sequence of the distinct values of [input]. *)
Definition ascending_distinct (input output : list T) : Prop :=
  StronglySorted less output ∧ ∀ a, a ∈ output ↔ a ∈ input.

(** The largest and the smallest value of a sequence, if it has one. *)
Definition maximum (values : list T) : option T :=
  foldr (λ a m, match m with
                | None => Some a
                | Some b => Some (if ltb b a then a else b)
                end) None values.

Definition minimum (values : list T) : option T :=
  foldr (λ a m, match m with
                | None => Some a
                | Some b => Some (if ltb a b then a else b)
                end) None values.

(** The invariant of the data model: order at every node, and no value
    twice in one tree. *)
Definition bst_invariant (tree : Tree T) : Prop :=
  is_bst tree = true ∧ NoDup (iterate tree).

End SpecWords.

(** ** test_pq.py *)

(** The four tests, at the type of the numbers they use.  [assert] is the
    one of the monad; a test passes when it returns. *)
Section Tests.
Let x : list nat := seq 0 5.
Let data : list nat := seq 0 10.

Definition test_search_tree_sort : M nat unit :=
  for_each (permutations x)
    (λ y, let! sorted := st_sort y in assert (bool_decide (x = sorted))).

Definition test_pq_sort (fuel : nat) : M nat unit :=
  for_each (permutations x)
    (λ y, let! sorted := pq_sort fuel y in assert (bool_decide (x = sorted))).

Definition test_merge (fuel : nat) : M nat unit :=
  let! x := SearchTree_init (take 5 data) Empty in
  let! y := SearchTree_init (drop 5 data) Empty in
  let! merged := general_merge fuel x y in
  let! values := SearchTree_iter merged in
  let! _ := assert (bool_decide (data = values)) in
  let! x := SearchTree_init (take 5 data) Empty in
  let! y := SearchTree_init (drop 5 data) Empty in
  let! merged := special_merge fuel x y in
  let! values := SearchTree_iter merged in
  assert (bool_decide (data = values)).

Definition test_merge_persistent (fuel : nat) : M nat unit :=
  let! x := SearchTree_init (take 5 data) Empty in
  let! y := SearchTree_init (drop 5 data) Empty in
  let! merged := general_merge_persistent fuel x y in
  let! values := SearchTree_iter merged in
  let! _ := assert (bool_decide (data = values)) in
  let! merged := special_merge_persistent fuel x y in
  let! values := SearchTree_iter merged in
  assert (bool_decide (data = values)).

(** Whether a computation returned. *)
Definition returns {A} (c : M nat A) : bool :=
  match c [] with Done _ _ => true | _ => false end.

End Tests.

(** * Facts about the tree core *)

Section TreeFacts.
Context {T : Type} `{StrictTotal T}.

Implicit Types (t l r : Tree T) (a b v val : T).

Lemma ltb_asym a b : ltb a b = true → ltb b a = false.
Proof.
  intros Hab. destruct (ltb b a) eqn:Hba; [|done].
  rewrite <- (ltb_irrefl a). symmetry. by apply ltb_trans with b.
Qed.

Lemma ltb_neq a b : ltb a b = true → a ≠ b.
Proof. intros Hab ->. rewrite ltb_irrefl in Hab. done. Qed.

Lemma less_trans : Transitive (less (T:=T)).
Proof. intros a b c. apply ltb_trans. Qed.

Lemma forallb_elem (p : T → bool) (xs : list T) :
  forallb p xs = true ↔ ∀ a, a ∈ xs → p a = true.
Proof.
  rewrite forallb_forall. split; intros Hp a Ha; apply Hp.
  - by apply list_elem_of_In.
  - by apply list_elem_of_In.
Qed.

Lemma is_bst_node v l r :
  is_bst (Node v l r) = true ↔
    (∀ a, a ∈ iterate l → ltb a v = true) ∧
    (∀ a, a ∈ iterate r → ltb v a = true) ∧
    is_bst l = true ∧ is_bst r = true.
Proof.
  simpl. rewrite !andb_true_iff, !forallb_elem. tauto.
Qed.

Lemma elem_of_iterate_node a v l r :
  a ∈ iterate (Node v l r) ↔ a ∈ iterate l ∨ a = v ∨ a ∈ iterate r.
Proof. simpl. rewrite elem_of_app, elem_of_cons. tauto. Qed.

(** *** insert *)

Lemma elem_of_insert t val a :
  a ∈ iterate (insert t val) ↔ a = val ∨ a ∈ iterate t.
Proof.
  induction t as [|v l IHl r IHr]; simpl.
  - rewrite elem_of_cons, elem_of_nil. tauto.
  - destruct (ltb val v) eqn:Hlt; [|destruct (ltb v val) eqn:Hgt].
    + rewrite elem_of_iterate_node, IHl, elem_of_app, elem_of_cons. tauto.
    + rewrite elem_of_iterate_node, IHr, elem_of_app, elem_of_cons. tauto.
    + rewrite (ltb_total val v Hlt Hgt).
      rewrite elem_of_iterate_node, elem_of_app, elem_of_cons. tauto.
Qed.

Lemma insert_is_bst t val : is_bst t = true → is_bst (insert t val) = true.
Proof.
  induction t as [|v l IHl r IHr]; [done|].
  intros Hbst. pose proof Hbst as (Hl & Hr & Hbl & Hbr)%is_bst_node.
  simpl insert.
  destruct (ltb val v) eqn:Hlt; [|destruct (ltb v val) eqn:Hgt]; [| |done].
  - apply is_bst_node. split_and!; auto.
    intros a [-> | Ha]%elem_of_insert; auto.
  - apply is_bst_node. split_and!; auto.
    intros a [-> | Ha]%elem_of_insert; auto.
Qed.

Lemma insert_present t val :
  is_bst t = true → val ∈ iterate t → insert t val = t.
Proof.
  induction t as [|v l IHl r IHr]; simpl iterate.
  - intros _ Hin. by apply elem_of_nil in Hin.
  - intros (Hl & Hr & Hbl & Hbr)%is_bst_node Hin. simpl.
    apply elem_of_app in Hin as [Hin | Hin%elem_of_cons].
    + rewrite (Hl _ Hin). by rewrite IHl.
    + destruct Hin as [-> | Hin].
      * by rewrite ltb_irrefl.
      * rewrite (ltb_asym _ _ (Hr _ Hin)), (Hr _ Hin). by rewrite IHr.
Qed.

Lemma contains_spec t val :
  is_bst t = true → contains t val = true ↔ val ∈ iterate t.
Proof.
  induction t as [|v l IHl r IHr]; simpl iterate.
  - intros _. simpl. rewrite elem_of_nil. split; [done | tauto].
  - intros (Hl & Hr & Hbl & Hbr)%is_bst_node. simpl contains.
    rewrite elem_of_app, elem_of_cons.
    destruct (ltb val v) eqn:Hlt; [|destruct (ltb v val) eqn:Hgt].
    + rewrite (IHl Hbl). split; [tauto|].
      intros [Hin | [-> | Hin]]; [done | |].
      * by rewrite ltb_irrefl in Hlt.
      * apply Hr in Hin. apply ltb_asym in Hin. congruence.
    + rewrite (IHr Hbr). split; [tauto|].
      intros [Hin | [-> | Hin]]; [| | done].
      * apply Hl in Hin. congruence.
      * by rewrite ltb_irrefl in Hgt.
    + split; [|done]. intros _. right; left. by apply ltb_total.
Qed.

(** *** the ends of a tree *)

Lemma rightmost_node_elem v l r :
  rightmost_node v r ∈ iterate (Node v l r).
Proof.
  revert v l. induction r as [|v' l' _ r' IHr]; intros v l.
  - apply elem_of_iterate_node. simpl. auto.
  - apply elem_of_iterate_node. right; right. apply (IHr v' l').
Qed.

Lemma leftmost_node_elem v l r :
  leftmost_node v l ∈ iterate (Node v l r).
Proof.
  revert v r. induction l as [|v' l' IHl r' _]; intros v r.
  - apply elem_of_iterate_node. simpl. auto.
  - apply elem_of_iterate_node. left. apply (IHl v' r').
Qed.

Lemma rightmost_node_max v l r a :
  is_bst (Node v l r) = true → a ∈ iterate (Node v l r) →
  a = rightmost_node v r ∨ ltb a (rightmost_node v r) = true.
Proof.
  revert v l a. induction r as [|v' l' _ r' IHr]; intros v l a.
  - intros (Hl & _)%is_bst_node [Ha | [-> | Ha]]%elem_of_iterate_node; simpl.
    + right. auto.
    + by left.
    + by apply elem_of_nil in Ha.
  - intros (Hl & Hr & Hbl & Hbr)%is_bst_node Ha.
    change (rightmost_node v (Node v' l' r')) with (rightmost_node v' r').
    assert (Hv : ltb v (rightmost_node v' r') = true).
    { destruct (IHr v' l' v' Hbr) as [Heq | Hlt].
      - apply elem_of_iterate_node. auto.
      - rewrite <- Heq. apply Hr, elem_of_iterate_node. auto.
      - apply ltb_trans with v'; [|done].
        apply Hr, elem_of_iterate_node. auto. }
    apply elem_of_iterate_node in Ha as [Ha | [-> | Ha]].
    + right. apply ltb_trans with v; auto.
    + by right.
    + by apply (IHr v' l').
Qed.

Lemma leftmost_node_min v l r a :
  is_bst (Node v l r) = true → a ∈ iterate (Node v l r) →
  a = leftmost_node v l ∨ ltb (leftmost_node v l) a = true.
Proof.
  revert v r a. induction l as [|v' l' IHl r' _]; intros v r a.
  - intros (_ & Hr & _)%is_bst_node [Ha | [-> | Ha]]%elem_of_iterate_node; simpl.
    + by apply elem_of_nil in Ha.
    + by left.
    + right. auto.
  - intros (Hl & Hr & Hbl & Hbr)%is_bst_node Ha.
    change (leftmost_node v (Node v' l' r')) with (leftmost_node v' l').
    assert (Hv : ltb (leftmost_node v' l') v = true).
    { destruct (IHl v' r' v' Hbl) as [Heq | Hlt].
      - apply elem_of_iterate_node. auto.
      - rewrite <- Heq. apply Hl, elem_of_iterate_node. auto.
      - apply ltb_trans with v'; [done|].
        apply Hl, elem_of_iterate_node. auto. }
    apply elem_of_iterate_node in Ha as [Ha | [-> | Ha]].
    + by apply (IHl v' r').
    + by right.
    + right. apply ltb_trans with v; auto.
Qed.

(** *** remove *)

Lemma ltb_cases a b : ltb a b = true ∨ a = b ∨ ltb b a = true.
Proof.
  destruct (ltb a b) eqn:Hab; [by left|].
  destruct (ltb b a) eqn:Hba; [by right; right|].
  right; left. by apply ltb_total.
Qed.

Lemma remove_two_children v l r lv ll lr rv rl rr :
  l = Node lv ll lr → r = Node rv rl rr →
  remove (Node v l r) v =
    Node (rightmost_node lv lr) (remove l (rightmost_node lv lr)) r.
Proof. intros -> ->. simpl. by rewrite ltb_irrefl. Qed.

Lemma elem_of_remove t val a :
  is_bst t = true →
  a ∈ iterate (remove t val) ↔ a ∈ iterate t ∧ a ≠ val.
Proof.
  revert val a. induction t as [|v l IHl r IHr]; intros val a.
  - simpl. rewrite elem_of_nil. tauto.
  - intros Hbst. pose proof Hbst as (Hl & Hr & Hbl & Hbr)%is_bst_node.
    simpl remove.
    destruct (ltb val v) eqn:Hlt; [|destruct (ltb v val) eqn:Hgt].
    + rewrite !elem_of_iterate_node, (IHl _ _ Hbl).
      split; [|tauto]. intros [[? ?] | [-> | Ha]]; split; auto.
      * intros ->. by rewrite ltb_irrefl in Hlt.
      * intros ->. apply Hr, ltb_asym in Ha. congruence.
    + rewrite !elem_of_iterate_node, (IHr _ _ Hbr).
      split; [|tauto]. intros [Ha | [-> | [? ?]]]; split; auto.
      * intros ->. apply Hl in Ha. congruence.
      * intros ->. by rewrite ltb_irrefl in Hgt.
    + rewrite (ltb_total val v Hlt Hgt). clear val Hlt Hgt.
      assert (Hnl : ∀ b, b ∈ iterate l → b ≠ v) by (intros b Hb%Hl; by apply ltb_neq).
      assert (Hnr : ∀ b, b ∈ iterate r → b ≠ v).
      { intros b Hb%Hr ->. by rewrite ltb_irrefl in Hb. }
      destruct l as [|lv ll lr] eqn:El; [|destruct r as [|rv rl rr] eqn:Er].
      * rewrite elem_of_iterate_node. cbn [iterate].
        rewrite elem_of_nil. split; [|tauto]. auto.
      * rewrite (elem_of_iterate_node a v). cbn [iterate].
        rewrite elem_of_nil. split; [|tauto]. auto.
      * rewrite <- El, <- Er in *.
        set (m := rightmost_node lv lr).
        assert (Hm : m ∈ iterate l).
        { rewrite El. apply rightmost_node_elem. }
        rewrite !elem_of_iterate_node, (IHl _ _ Hbl).
        split.
        -- intros [[Ha _] | [-> | Ha]]; split; auto.
        -- intros [[Ha | [-> | Ha]] Hne]; [|done|auto].
           destruct (ltb_cases a m) as [Ham | [-> | Ham]]; auto.
           ++ left. split; [done|]. by apply ltb_neq.
           ++ left. split; [done|].
              intros ->. by rewrite ltb_irrefl in Ham.
Qed.

Lemma remove_is_bst t val : is_bst t = true → is_bst (remove t val) = true.
Proof.
  revert val. induction t as [|v l IHl r IHr]; intros val; [done|].
  intros Hbst. pose proof Hbst as (Hl & Hr & Hbl & Hbr)%is_bst_node.
  simpl remove.
  destruct (ltb val v) eqn:Hlt; [|destruct (ltb v val) eqn:Hgt].
  - apply is_bst_node. split_and!; auto.
    intros a [Ha _]%elem_of_remove; auto.
  - apply is_bst_node. split_and!; auto.
    intros a [Ha _]%elem_of_remove; auto.
  - destruct l as [|lv ll lr] eqn:El; [done|].
    destruct r as [|rv rl rr] eqn:Er; [done|].
    rewrite <- El, <- Er in *.
    set (m := rightmost_node lv lr).
    assert (Hm : m ∈ iterate l).
    { rewrite El. apply rightmost_node_elem. }
    apply is_bst_node. split_and!; auto.
    + intros a [Ha Hne]%elem_of_remove; [|done].
      rewrite El in Ha, Hbl.
      by destruct (rightmost_node_max lv ll lr a Hbl Ha).
    + intros a Ha. apply ltb_trans with v; auto.
Qed.

Lemma remove_absent t val :
  is_bst t = true → val ∉ iterate t → remove t val = t.
Proof.
  induction t as [|v l IHl r IHr]; [done|].
  intros (Hl & Hr & Hbl & Hbr)%is_bst_node Hnin.
  rewrite elem_of_iterate_node in Hnin. simpl.
  destruct (ltb_cases val v) as [Hlt | [-> | Hgt]].
  - rewrite Hlt, IHl; auto.
  - tauto.
  - rewrite (ltb_asym _ _ Hgt), Hgt, IHr; auto.
Qed.

(** *** in-order traversal of a search tree *)

Lemma is_bst_sorted t : is_bst t = true → StronglySorted less (iterate t).
Proof.
  induction t as [|v l IHl r IHr]; [constructor|].
  intros (Hl & Hr & Hbl & Hbr)%is_bst_node. simpl.
  apply StronglySorted_app_2; auto.
  - intros a b Ha [-> | Hb]%elem_of_cons; [by apply Hl|].
    apply ltb_trans with v; auto.
  - apply StronglySorted_cons. split; auto.
    apply Forall_forall. intros b Hb. by apply Hr.
Qed.

Lemma sorted_NoDup (xs : list T) : StronglySorted less xs → NoDup xs.
Proof.
  induction 1 as [|a xs _ IH Hall]; constructor; [|done].
  intros Ha. rewrite Forall_forall in Hall. apply Hall in Ha.
  unfold less in Ha. by rewrite ltb_irrefl in Ha.
Qed.

Lemma sorted_unique (xs ys : list T) :
  StronglySorted less xs → StronglySorted less ys →
  (∀ a, a ∈ xs ↔ a ∈ ys) → xs = ys.
Proof.
  intros Hxs Hys Hsame.
  apply (StronglySorted_unique_strong less); [|done|done|].
  - intros a b _ _ Hab Hba. apply ltb_asym in Hab. congruence.
  - apply NoDup_Permutation; auto using sorted_NoDup.
Qed.

Lemma ascending_distinct_unique (input xs ys : list T) :
  ascending_distinct input xs → ascending_distinct input ys → xs = ys.
Proof.
  intros [Hxs Hx] [Hys Hy]. apply sorted_unique; [done|done|].
  intros a. by rewrite Hx, Hy.
Qed.

Lemma is_bst_invariant t : is_bst t = true → bst_invariant t.
Proof. intros Hb. split; [done|]. by apply sorted_NoDup, is_bst_sorted. Qed.

End TreeFacts.

(** * Facts about the largest and the smallest value *)

Section Extrema.
Context {T : Type} `{StrictTotal T}.

Implicit Types (t l r : Tree T) (a b m v : T) (xs : list T).

Lemma maximum_None xs : maximum xs = None ↔ xs = [].
Proof.
  destruct xs as [|a xs]; [done|]. simpl.
  by destruct (maximum xs).
Qed.

Lemma minimum_None xs : minimum xs = None ↔ xs = [].
Proof.
  destruct xs as [|a xs]; [done|]. simpl.
  by destruct (minimum xs).
Qed.

Lemma maximum_Some xs m :
  maximum xs = Some m →
  m ∈ xs ∧ ∀ a, a ∈ xs → a = m ∨ ltb a m = true.
Proof.
  revert m. induction xs as [|c xs IH]; intros m; [done|].
  simpl. destruct (maximum xs) as [b|] eqn:Hmax.
  - destruct (IH b eq_refl) as [Hb Hle]. intros [= <-].
    destruct (ltb b c) eqn:Hbc.
    + split; [apply list_elem_of_here|].
      intros a [-> | Ha]%elem_of_cons; [by left|]. right.
      destruct (Hle a Ha) as [-> | Hab]; [done|].
      by apply ltb_trans with b.
    + split; [by apply list_elem_of_further|].
      intros a [-> | Ha]%elem_of_cons; [|by apply Hle].
      destruct (ltb_cases c b) as [? | [? | ?]]; auto. congruence.
  - apply maximum_None in Hmax as ->. intros [= <-].
    split; [apply list_elem_of_here|].
    intros a [-> | Ha]%elem_of_cons; [by left|]. by apply elem_of_nil in Ha.
Qed.

Lemma minimum_Some xs m :
  minimum xs = Some m →
  m ∈ xs ∧ ∀ a, a ∈ xs → a = m ∨ ltb m a = true.
Proof.
  revert m. induction xs as [|c xs IH]; intros m; [done|].
  simpl. destruct (minimum xs) as [b|] eqn:Hmin.
  - destruct (IH b eq_refl) as [Hb Hle]. intros [= <-].
    destruct (ltb c b) eqn:Hcb.
    + split; [apply list_elem_of_here|].
      intros a [-> | Ha]%elem_of_cons; [by left|]. right.
      destruct (Hle a Ha) as [-> | Hab]; [done|].
      by apply ltb_trans with b.
    + split; [by apply list_elem_of_further|].
      intros a [-> | Ha]%elem_of_cons; [|by apply Hle].
      destruct (ltb_cases c b) as [? | [? | ?]]; auto. congruence.
  - apply minimum_None in Hmin as ->. intros [= <-].
    split; [apply list_elem_of_here|].
    intros a [-> | Ha]%elem_of_cons; [by left|]. by apply elem_of_nil in Ha.
Qed.

Lemma maximum_intro xs m :
  m ∈ xs → (∀ a, a ∈ xs → a = m ∨ ltb a m = true) → maximum xs = Some m.
Proof.
  intros Hm Hle. destruct (maximum xs) as [b|] eqn:Hmax.
  - apply maximum_Some in Hmax as [Hb Hleb]. f_equal.
    destruct (Hle b Hb) as [-> | Hbm]; [done|].
    destruct (Hleb m Hm) as [-> | Hmb]; [done|].
    apply ltb_asym in Hbm. congruence.
  - apply maximum_None in Hmax as ->. by apply elem_of_nil in Hm.
Qed.

Lemma minimum_intro xs m :
  m ∈ xs → (∀ a, a ∈ xs → a = m ∨ ltb m a = true) → minimum xs = Some m.
Proof.
  intros Hm Hle. destruct (minimum xs) as [b|] eqn:Hmin.
  - apply minimum_Some in Hmin as [Hb Hleb]. f_equal.
    destruct (Hle b Hb) as [-> | Hbm]; [done|].
    destruct (Hleb m Hm) as [-> | Hmb]; [done|].
    apply ltb_asym in Hbm. congruence.
  - apply minimum_None in Hmin as ->. by apply elem_of_nil in Hm.
Qed.

(** In a search tree the rightmost value is the largest and the leftmost
    value is the smallest. *)
Lemma rightmost_maximum v l r :
  is_bst (Node v l r) = true →
  maximum (iterate (Node v l r)) = Some (rightmost_node v r).
Proof.
  intros Hbst. apply maximum_intro.
  - apply rightmost_node_elem.
  - intros a. by apply rightmost_node_max.
Qed.

Lemma leftmost_minimum v l r :
  is_bst (Node v l r) = true →
  minimum (iterate (Node v l r)) = Some (leftmost_node v l).
Proof.
  intros Hbst. apply minimum_intro.
  - apply leftmost_node_elem.
  - intros a. by apply leftmost_node_min.
Qed.

Lemma iterate_nil t : iterate t = [] ↔ t = Empty.
Proof.
  destruct t as [|v l r]; [done|]. simpl. split; [|done].
  by intros ?%app_nil_r_inv.
Qed.

(** Taking the smallest value out of a search tree leaves the rest of its
    traversal. *)
Lemma iterate_remove_leftmost v l r :
  is_bst (Node v l r) = true →
  iterate (Node v l r) =
    leftmost_node v l :: iterate (remove (Node v l r) (leftmost_node v l)).
Proof.
  intros Hbst. set (t := Node v l r) in *. set (m := leftmost_node v l).
  assert (Hm : m ∈ iterate t) by apply leftmost_node_elem.
  assert (Hmin : ∀ a, a ∈ iterate t → a = m ∨ ltb m a = true).
  { intros a. by apply leftmost_node_min. }
  apply sorted_unique.
  - by apply is_bst_sorted.
  - apply StronglySorted_cons. split.
    + apply Forall_forall. intros a [Ha Hne]%elem_of_remove; [|done].
      by destruct (Hmin a Ha).
    + by apply is_bst_sorted, remove_is_bst.
  - intros a. rewrite elem_of_cons, elem_of_remove by done.
    split; [|by intros [-> | [Ha _]]].
    intros Ha. destruct (Hmin a Ha) as [-> | Hlt]; [by left|].
    right. split; [done|]. intros ->. by rewrite ltb_irrefl in Hlt.
Qed.

End Extrema.

(** * Running the methods *)

Section Running.
Context {T : Type} `{StrictTotal T}.

Implicit Types (t l r : Tree T) (a b m v : T) (xs data : list T).
Implicit Types (σ : list (Tree T)) (q x y : ref).

Lemma bind_Done {A B} (c : M T A) (k : A → M T B) σ (res : A) σ' :
  c σ = Done res σ' → bind c k σ = k res σ'.
Proof. unfold bind. by intros ->. Qed.

Lemma bind_Raised {A B} (c : M T A) (k : A → M T B) σ e σ' :
  c σ = Raised e σ' → bind c k σ = Raised e σ'.
Proof. unfold bind. by intros ->. Qed.

Lemma get_root_run σ q t : σ !! q = Some t → get_root q σ = Done t σ.
Proof. unfold get_root. by intros ->. Qed.

Lemma set_root_run σ q t t' :
  σ !! q = Some t → set_root q t' σ = Done tt (<[q := t']> σ).
Proof. unfold set_root. by intros ->. Qed.

Lemma lookup_set σ q t t' : σ !! q = Some t → <[q := t']> σ !! q = Some t'.
Proof. intros Hq. by apply list_lookup_insert_eq, lookup_lt_Some with t. Qed.

Lemma SearchTree_insert_run σ q t v :
  σ !! q = Some t →
  SearchTree_insert q v σ = Done tt (<[q := insert t v]> σ).
Proof.
  intros Hq. unfold SearchTree_insert.
  rewrite (bind_Done _ _ _ _ _ (get_root_run _ _ _ Hq)).
  by apply set_root_run with t.
Qed.

Lemma SearchTree_remove_run σ q t v :
  σ !! q = Some t →
  SearchTree_remove q v σ = Done tt (<[q := remove t v]> σ).
Proof.
  intros Hq. unfold SearchTree_remove.
  rewrite (bind_Done _ _ _ _ _ (get_root_run _ _ _ Hq)).
  by apply set_root_run with t.
Qed.

Lemma SearchTree_iter_run σ q t :
  σ !! q = Some t → SearchTree_iter q σ = Done (iterate t) σ.
Proof.
  intros Hq. unfold SearchTree_iter.
  by rewrite (bind_Done _ _ _ _ _ (get_root_run _ _ _ Hq)).
Qed.

Lemma SearchTree_bool_run σ q t :
  σ !! q = Some t → SearchTree_bool q σ = Done (truthy t) σ.
Proof.
  intros Hq. unfold SearchTree_bool.
  by rewrite (bind_Done _ _ _ _ _ (get_root_run _ _ _ Hq)).
Qed.

Lemma for_each_insert_run data σ q t :
  σ !! q = Some t →
  for_each data (λ v, SearchTree_insert q v) σ
    = Done tt (<[q := foldl insert t data]> σ).
Proof.
  revert σ t. induction data as [|v data IH]; intros σ t Hq; simpl.
  - unfold ret. by rewrite list_insert_id.
  - rewrite (bind_Done _ _ _ _ _ (SearchTree_insert_run _ _ _ v Hq)).
    rewrite (IH _ (insert t v)) by by apply lookup_set with t.
    by rewrite list_insert_insert_eq.
Qed.

Lemma SearchTree_init_run data t σ :
  SearchTree_init data t σ
    = Done (length σ) (σ ++ [foldl insert t data]).
Proof.
  unfold SearchTree_init, alloc.
  rewrite (bind_Done _ _ σ (length σ) (σ ++ [t])) by done.
  rewrite (bind_Done _ _ _ tt (σ ++ [foldl insert t data])); [done|].
  rewrite (for_each_insert_run _ _ _ t) by (by apply list_lookup_middle).
  f_equal. rewrite insert_app_r_alt by done.
  by rewrite Nat.sub_diag.
Qed.

Lemma st_sort_run data σ :
  st_sort data σ
    = Done (iterate (foldl insert Empty data))
           (σ ++ [foldl insert Empty data]).
Proof.
  unfold st_sort.
  rewrite (bind_Done _ _ _ _ _ (SearchTree_init_run _ _ _)).
  apply SearchTree_iter_run. by apply list_lookup_middle.
Qed.

(** *** building a tree by insertion *)

Lemma foldl_insert_is_bst data t :
  is_bst t = true → is_bst (foldl insert t data) = true.
Proof.
  revert t. induction data as [|v data IH]; intros t Ht; [done|].
  simpl. by apply IH, insert_is_bst.
Qed.

Lemma elem_of_foldl_insert data t a :
  a ∈ iterate (foldl insert t data) ↔ a ∈ iterate t ∨ a ∈ data.
Proof.
  revert t. induction data as [|v data IH]; intros t; simpl.
  - rewrite elem_of_nil. tauto.
  - rewrite IH, elem_of_insert, elem_of_cons. tauto.
Qed.

Lemma length_iterate_insert t v :
  length (iterate (insert t v)) ≤ S (length (iterate t)).
Proof.
  induction t as [|u l IHl r IHr]; simpl; [lia|].
  destruct (ltb v u); [|destruct (ltb u v)]; simpl;
    rewrite !length_app; simpl; lia.
Qed.

Lemma length_iterate_foldl_insert data t :
  length (iterate (foldl insert t data))
    ≤ length (iterate t) + length data.
Proof.
  revert t. induction data as [|v data IH]; intros t; simpl; [lia|].
  pose proof (IH (insert t v)). pose proof (length_iterate_insert t v). lia.
Qed.

Lemma build_ascending_distinct data :
  ascending_distinct data (iterate (foldl insert Empty data)).
Proof.
  split.
  - by apply is_bst_sorted, foldl_insert_is_bst.
  - intros a. rewrite elem_of_foldl_insert. simpl. rewrite elem_of_nil. tauto.
Qed.

(** *** the priority queue *)

Lemma min_val_run σ q v l r :
  σ !! q = Some (Node v l r) →
  PriorityQueue_min_val q σ = Done (leftmost_node v l) σ.
Proof.
  intros Hq. unfold PriorityQueue_min_val.
  by rewrite (bind_Done _ _ _ _ _ (get_root_run _ _ _ Hq)).
Qed.

Lemma min_val_empty σ q :
  σ !! q = Some Empty → PriorityQueue_min_val q σ = Raised AttributeError σ.
Proof.
  intros Hq. unfold PriorityQueue_min_val.
  by rewrite (bind_Done _ _ _ _ _ (get_root_run _ _ _ Hq)).
Qed.

Lemma delete_min_run σ q v l r :
  σ !! q = Some (Node v l r) →
  PriorityQueue_delete_min q σ
    = Done (leftmost_node v l)
           (<[q := remove (Node v l r) (leftmost_node v l)]> σ).
Proof.
  intros Hq. unfold PriorityQueue_delete_min.
  rewrite (bind_Done _ _ _ _ _ (min_val_run _ _ _ _ _ Hq)).
  by rewrite (bind_Done _ _ _ _ _ (SearchTree_remove_run _ _ _ _ Hq)).
Qed.

Lemma delete_min_empty σ q :
  σ !! q = Some Empty →
  PriorityQueue_delete_min q σ = Raised AttributeError σ.
Proof.
  intros Hq. unfold PriorityQueue_delete_min.
  by rewrite (bind_Raised _ _ _ _ _ (min_val_empty _ _ Hq)).
Qed.

(** The loop of [pq_sort]: it appends the traversal of the queue to
    [sorted] and leaves the queue empty. *)
Lemma drain_run fuel σ q t (sorted : list T) :
  σ !! q = Some t → is_bst t = true → length (iterate t) < fuel →
  while fuel
    (λ _, let! root := get_root q in ret (truthy root))
    (λ sorted, let! m := PriorityQueue_delete_min q in ret (sorted ++ [m]))
    sorted σ
  = Done (sorted ++ iterate t) (<[q := Empty]> σ).
Proof.
  revert σ t sorted.
  induction fuel as [|fuel IH]; intros σ t sorted Hq Hbst Hfuel; [lia|].
  cbn [while].
  rewrite (bind_Done _ _ σ (truthy t) σ)
    by by rewrite (bind_Done _ _ _ _ _ (get_root_run _ _ _ Hq)).
  destruct t as [|v l r]; cbn [truthy].
  - unfold ret. by rewrite app_nil_r, list_insert_id.
  - set (m := leftmost_node v l). set (t := Node v l r) in *.
    rewrite (bind_Done _ _ σ (sorted ++ [m]) (<[q := remove t m]> σ))
      by by rewrite (bind_Done _ _ _ _ _ (delete_min_run _ _ _ _ _ Hq)).
    pose proof (iterate_remove_leftmost v l r Hbst) as Hit. fold t m in Hit.
    rewrite (IH _ (remove t m)).
    + rewrite list_insert_insert_eq, Hit. by rewrite <- app_assoc.
    + by apply lookup_set with t.
    + by apply remove_is_bst.
    + rewrite Hit in Hfuel. rewrite length_cons in Hfuel. lia.
Qed.

Lemma pq_sort_run fuel data σ :
  length data < fuel →
  pq_sort fuel data σ
    = Done (iterate (foldl insert Empty data)) (σ ++ [Empty]).
Proof.
  intros Hfuel. unfold pq_sort.
  rewrite (bind_Done _ _ _ _ _ (SearchTree_init_run _ _ _)).
  rewrite (drain_run _ _ _ (foldl insert Empty data)).
  - f_equal. rewrite insert_app_r_alt by done. by rewrite Nat.sub_diag.
  - by apply list_lookup_middle.
  - by apply foldl_insert_is_bst.
  - pose proof (length_iterate_foldl_insert data Empty) as Hlen.
    simpl in Hlen. lia.
Qed.

End Running.

(** * The merges *)

Section Merging.
Context {T : Type} `{StrictTotal T}.

Implicit Types (t l r : Tree T) (a b m v : T) (xs data : list T).
Implicit Types (σ : list (Tree T)) (q x y : ref).

Lemma lookup_set_other σ x y t : x ≠ y → <[y := t]> σ !! x = σ !! x.
Proof. intros Hne. by apply list_lookup_insert_ne. Qed.

(** *** general_merge *)

Lemma general_merge_loop fuel σ x y tx ty :
  x ≠ y → σ !! x = Some tx → σ !! y = Some ty →
  is_bst ty = true → length (iterate ty) < fuel →
  while fuel
    (λ _, let! root := get_root y in ret (truthy root))
    (λ _, let! m := PriorityQueue_delete_min y in SearchTree_insert x m)
    tt σ
  = Done tt (<[y := Empty]> (<[x := foldl insert tx (iterate ty)]> σ)).
Proof.
  intros Hne. revert σ tx ty.
  induction fuel as [|fuel IH]; intros σ tx ty Hx Hy Hbst Hfuel; [lia|].
  cbn [while].
  rewrite (bind_Done _ _ σ (truthy ty) σ)
    by by rewrite (bind_Done _ _ _ _ _ (get_root_run _ _ _ Hy)).
  destruct ty as [|v l r]; cbn [truthy].
  - unfold ret. cbn [iterate foldl].
    rewrite (list_insert_id σ x tx) by done. by rewrite list_insert_id.
  - set (m := leftmost_node v l). set (ty := Node v l r) in *.
    pose proof (iterate_remove_leftmost v l r Hbst) as Hit. fold ty m in Hit.
    set (σ1 := <[y := remove ty m]> σ).
    assert (Hx1 : σ1 !! x = Some tx) by by (unfold σ1; rewrite lookup_set_other).
    rewrite (bind_Done _ _ σ tt (<[x := insert tx m]> σ1)).
    2: { rewrite (bind_Done _ _ _ _ _ (delete_min_run _ _ _ _ _ Hy)).
         by apply SearchTree_insert_run. }
    rewrite (IH _ (insert tx m) (remove ty m)).
    + rewrite Hit. cbn [foldl]. unfold σ1.
      rewrite list_insert_insert_eq.
      rewrite (list_insert_insert_ne _ x y) by done.
      by rewrite list_insert_insert_eq.
    + by apply lookup_set with tx.
    + rewrite lookup_set_other by done. by apply lookup_set with ty.
    + by apply remove_is_bst.
    + rewrite Hit, length_cons in Hfuel. lia.
Qed.

Lemma general_merge_run fuel σ x y tx ty :
  x ≠ y → σ !! x = Some tx → σ !! y = Some ty →
  is_bst ty = true → length (iterate ty) < fuel →
  general_merge fuel x y σ
  = Done x (<[y := Empty]> (<[x := foldl insert tx (iterate ty)]> σ)).
Proof.
  intros Hne Hx Hy Hbst Hfuel. unfold general_merge.
  by rewrite (bind_Done _ _ _ _ _
                (general_merge_loop _ _ _ _ _ _ Hne Hx Hy Hbst Hfuel)).
Qed.

(** *** the linear merge *)

(** The two-pointer loop returns, and what it has appended together with
    the two slices it leaves holds the values it started from. *)
Lemma merge_loop_run fuel σ (pq1 pq2 : list T) i j (merged : list T) :
  (length pq1 - i) + (length pq2 - j) < fuel →
  ∃ i' j' merged',
    while fuel
      (λ '(i, j, _), ret (bool_decide (i < length pq1)
                          && bool_decide (j < length pq2)))
      (λ '(i, j, merged),
         let! a := index pq1 i in
         let! b := index pq2 j in
         if ltb a b then ret (S i, j, merged ++ [a])
         else ret (i, S j, merged ++ [b]))
      (i, j, merged) σ
    = Done (i', j', merged') σ ∧
    ∀ a, a ∈ merged' ++ drop i' pq1 ++ drop j' pq2
         ↔ a ∈ merged ++ drop i pq1 ++ drop j pq2.
Proof.
  revert i j merged.
  induction fuel as [|fuel IH]; intros i j merged Hfuel; [lia|].
  cbn [while]. unfold bind at 1, ret at 1.
  destruct (decide (i < length pq1)) as [Hi | Hi];
    [destruct (decide (j < length pq2)) as [Hj | Hj]|].
  - rewrite !bool_decide_eq_true_2 by done. cbn [andb].
    destruct (lookup_lt_is_Some_2 pq1 i Hi) as [c Hc].
    destruct (lookup_lt_is_Some_2 pq2 j Hj) as [d Hd].
    unfold bind at 1, bind at 1, index at 1. rewrite Hc. unfold ret at 1.
    unfold bind at 1, index at 1. rewrite Hd. unfold ret at 1.
    destruct (ltb c d).
    + unfold ret at 1.
      destruct (IH (S i) j (merged ++ [c])) as (i' & j' & merged' & -> & Hel);
        [lia|].
      exists i', j', merged'. split; [done|].
      intros a. rewrite Hel, (drop_S pq1 c i Hc).
      rewrite !elem_of_app, !elem_of_cons, elem_of_nil. tauto.
    + unfold ret at 1.
      destruct (IH i (S j) (merged ++ [d])) as (i' & j' & merged' & -> & Hel);
        [lia|].
      exists i', j', merged'. split; [done|].
      intros a. rewrite Hel, (drop_S pq2 d j Hd).
      rewrite !elem_of_app, !elem_of_cons, elem_of_nil. tauto.
  - rewrite (bool_decide_eq_false_2 (j < length pq2)) by done.
    rewrite andb_false_r. by exists i, j, merged.
  - rewrite (bool_decide_eq_false_2 (i < length pq1)) by done.
    cbn [andb]. by exists i, j, merged.
Qed.

(** *** special_merge *)

Lemma attach_right_leaf v l m :
  attach_right (Node v l Empty) m = Node v l (Node m Empty Empty).
Proof. done. Qed.

Lemma attach_right_node v l rv rl rr m :
  attach_right (Node v l (Node rv rl rr)) m
    = Node v l (attach_right (Node rv rl rr) m).
Proof. done. Qed.

Lemma iterate_attach_right t m :
  t ≠ Empty → iterate (attach_right t m) = iterate t ++ [m].
Proof.
  induction t as [|v l _ r IHr]; [done|]. intros _.
  destruct r as [|rv rl rr].
  - rewrite attach_right_leaf. simpl. by rewrite <- app_assoc.
  - rewrite attach_right_node. cbn [iterate] in *.
    rewrite IHr by done. by rewrite <- (app_assoc (iterate l)).
Qed.

Lemma descend_attach_right t m :
  t ≠ Empty → descend_right (attach_right t m) = S (descend_right t).
Proof.
  induction t as [|v l _ r IHr]; [done|]. intros _.
  destruct r as [|rv rl rr]; [done|].
  rewrite attach_right_node.
  specialize (IHr ltac:(done)).
  destruct (attach_right (Node rv rl rr) m) eqn:Hatt; [done|].
  cbn [descend_right] in *. by rewrite IHr.
Qed.

Lemma attach_right_nonempty t m : t ≠ Empty → attach_right t m ≠ Empty.
Proof. by destruct t as [|v l [|? ? ?]]. Qed.

Lemma foldl_attach_right_nonempty t xs :
  t ≠ Empty → foldl attach_right t xs ≠ Empty.
Proof.
  revert t. induction xs as [|m xs IH]; intros t Ht; [done|].
  simpl. by apply IH, attach_right_nonempty.
Qed.

Lemma iterate_foldl_attach_right t xs :
  t ≠ Empty → iterate (foldl attach_right t xs) = iterate t ++ xs.
Proof.
  revert t. induction xs as [|m xs IH]; intros t Ht; simpl.
  - by rewrite app_nil_r.
  - rewrite IH by by apply attach_right_nonempty.
    rewrite iterate_attach_right by done. by rewrite <- app_assoc.
Qed.

Lemma special_merge_loop fuel σ x y tx ty :
  x ≠ y → σ !! x = Some tx → tx ≠ Empty → σ !! y = Some ty →
  is_bst ty = true → length (iterate ty) < fuel →
  while fuel
    (λ _, let! root := get_root y in ret (truthy root))
    (λ d, let! m := PriorityQueue_delete_min y in
          let! root := get_root x in
          let! _ := set_root x (set_right d root (Node m Empty Empty)) in
          ret (S d))
    (descend_right tx) σ
  = Done (descend_right (foldl attach_right tx (iterate ty)))
         (<[y := Empty]> (<[x := foldl attach_right tx (iterate ty)]> σ)).
Proof.
  intros Hne. revert σ tx ty.
  induction fuel as [|fuel IH]; intros σ tx ty Hx Hnx Hy Hbst Hfuel; [lia|].
  cbn [while].
  rewrite (bind_Done _ _ σ (truthy ty) σ)
    by by rewrite (bind_Done _ _ _ _ _ (get_root_run _ _ _ Hy)).
  destruct ty as [|v l r]; cbn [truthy].
  - unfold ret. cbn [iterate foldl].
    rewrite (list_insert_id σ x tx) by done. by rewrite list_insert_id.
  - set (m := leftmost_node v l). set (ty := Node v l r) in *.
    pose proof (iterate_remove_leftmost v l r Hbst) as Hit. fold ty m in Hit.
    set (σ1 := <[y := remove ty m]> σ).
    assert (Hx1 : σ1 !! x = Some tx) by by (unfold σ1; rewrite lookup_set_other).
    rewrite (bind_Done _ _ σ (descend_right (attach_right tx m))
               (<[x := attach_right tx m]> σ1)).
    2: { rewrite (bind_Done _ _ _ _ _ (delete_min_run _ _ _ _ _ Hy)).
         rewrite (bind_Done _ _ _ _ _ (get_root_run _ _ _ Hx1)).
         fold (attach_right tx m).
         rewrite (bind_Done _ _ _ _ _ (set_root_run _ _ _ _ Hx1)).
         unfold ret. by rewrite descend_attach_right. }
    rewrite (IH _ (attach_right tx m) (remove ty m)).
    + rewrite Hit. cbn [foldl]. unfold σ1.
      rewrite list_insert_insert_eq.
      rewrite (list_insert_insert_ne _ x y) by done.
      by rewrite list_insert_insert_eq.
    + by apply lookup_set with tx.
    + by apply attach_right_nonempty.
    + rewrite lookup_set_other by done. by apply lookup_set with ty.
    + by apply remove_is_bst.
    + rewrite Hit, length_cons in Hfuel. lia.
Qed.

End Merging.

(** * The precondition check of the special merges *)

Section SpecialCheck.
Context {T : Type} `{StrictTotal T}.

Implicit Types (t l r : Tree T) (a b m v : T) (xs data : list T).
Implicit Types (σ : list (Tree T)) (q x y : ref).

Lemma checked_x_empty σ x y rest :
  σ !! x = Some Empty → checked x y rest σ = Raised AttributeError σ.
Proof.
  intros Hx. unfold checked.
  by rewrite (bind_Done _ _ _ _ _ (get_root_run _ _ _ Hx)).
Qed.

Lemma checked_y_empty σ x y tx rest :
  σ !! x = Some tx → σ !! y = Some Empty →
  checked x y rest σ = Raised AttributeError σ.
Proof.
  intros Hx Hy. destruct tx as [|v l r]; [by apply checked_x_empty|].
  unfold checked.
  rewrite (bind_Done _ _ _ _ _ (get_root_run _ _ _ Hx)).
  rewrite (bind_Done _ _ σ (rightmost_node v r) σ) by done.
  by rewrite (bind_Raised _ _ _ _ _ (min_val_empty _ _ Hy)).
Qed.

Lemma checked_nodes σ x y xv xl xr yv yl yr rest :
  σ !! x = Some (Node xv xl xr) → σ !! y = Some (Node yv yl yr) →
  checked x y rest σ =
    if ltb (rightmost_node xv xr) (leftmost_node yv yl) then rest σ
    else Raised AssertionError σ.
Proof.
  intros Hx Hy. unfold checked.
  rewrite (bind_Done _ _ _ _ _ (get_root_run _ _ _ Hx)).
  rewrite (bind_Done _ _ σ (rightmost_node xv xr) σ) by done.
  rewrite (bind_Done _ _ _ _ _ (min_val_run _ _ _ _ _ Hy)).
  by destruct (ltb _ _).
Qed.

Lemma checked_extrema σ x y tx ty mx my rest :
  σ !! x = Some tx → σ !! y = Some ty →
  is_bst tx = true → is_bst ty = true →
  maximum (iterate tx) = Some mx → minimum (iterate ty) = Some my →
  checked x y rest σ =
    if ltb mx my then rest σ else Raised AssertionError σ.
Proof.
  intros Hx Hy Hbx Hby Hmx Hmy.
  destruct tx as [|xv xl xr]; [done|]. destruct ty as [|yv yl yr]; [done|].
  rewrite (rightmost_maximum _ _ _ Hbx) in Hmx.
  rewrite (leftmost_minimum _ _ _ Hby) in Hmy.
  injection Hmx as <-. injection Hmy as <-.
  by apply (checked_nodes σ x y xv xl xr yv yl yr).
Qed.

End SpecialCheck.

(** * The claims *)

(** C1.  For every finite sequence [x] over a totally ordered type,
    [st_sort x] and [pq_sort x] both return the strictly ascending sequence
    of the distinct values of [x] ([pq_sort] once its loop is given more
    fuel than [x] has elements).  In particular both return [0, 1, ..., n-1]
    on every permutation of these numbers. *)
Theorem sort_helpers_ascending_distinct :
  (∀ (T : Type) `(StrictTotal T) (x : list T) (σ : list (Tree T)),
      ∃ out, ascending_distinct x out ∧
        (∃ σ', st_sort x σ = Done out σ') ∧
        (∀ fuel, length x < fuel → ∃ σ', pq_sort fuel x σ = Done out σ')) ∧
  (∀ (n : nat) (p : list nat) (σ : list (Tree nat)),
      p ≡ₚ seq 0 n →
        (∃ σ', st_sort p σ = Done (seq 0 n) σ') ∧
        (∀ fuel, n < fuel → ∃ σ', pq_sort fuel p σ = Done (seq 0 n) σ')).
Proof.
  split.
  - intros T ? ? x σ. exists (iterate (foldl insert Empty x)).
    split; [apply build_ascending_distinct|]. split.
    + eexists. apply st_sort_run.
    + intros fuel Hfuel. eexists. by apply pq_sort_run.
  - intros n p σ Hp.
    assert (Hout : iterate (foldl insert Empty p) = seq 0 n).
    { apply (ascending_distinct_unique p); [apply build_ascending_distinct|].
      split.
      - clear. generalize 0. induction n as [|n IH]; intros k; [constructor|].
        simpl. constructor; [apply IH|].
        apply Forall_forall. intros a [? _]%elem_of_seq.
        apply Nat.ltb_lt. lia.
      - intros a. by rewrite Hp. }
    rewrite <- Hout. split.
    + eexists. apply st_sort_run.
    + intros fuel Hfuel. eexists. apply pq_sort_run.
      apply Permutation_length in Hp. rewrite length_seq in Hp. lia.
Qed.

Lemma sort_helpers_ascending_distinct_witness :
  (∃ out, ascending_distinct [3; 1; 4; 1; 5; 9; 2; 6] out ∧
     (∃ σ', st_sort [3; 1; 4; 1; 5; 9; 2; 6] [] = Done out σ') ∧
     (∀ fuel, 8 < fuel →
        ∃ σ', pq_sort fuel [3; 1; 4; 1; 5; 9; 2; 6] [] = Done out σ')) ∧
  ((∃ σ', st_sort [2; 0; 1] [] = Done [0; 1; 2] σ') ∧
   (∀ fuel, 3 < fuel → ∃ σ', pq_sort fuel [2; 0; 1] [] = Done [0; 1; 2] σ')).
Proof.
  split.
  - apply (proj1 sort_helpers_ascending_distinct nat _ nat_strict_total).
  - apply (proj2 sort_helpers_ascending_distinct 3 [2; 0; 1] []).
    change (seq 0 3) with [0; 1; 2].
    etrans; [apply Permutation_swap|]. apply Permutation_skip, Permutation_swap.
Defined.

(** C2.  The empty tree satisfies the BST invariant (order at every node, no
    value twice), and [insert] and [remove] preserve it. *)
Theorem bst_invariant_preserved {T : Type} `{StrictTotal T} :
  bst_invariant (Empty (T:=T)) ∧
  ∀ (tree : Tree T) (v : T),
    bst_invariant tree →
    bst_invariant (insert tree v) ∧ bst_invariant (remove tree v).
Proof.
  split; [split; [done | constructor]|].
  intros tree v [Hbst _]. split; apply is_bst_invariant.
  - by apply insert_is_bst.
  - by apply remove_is_bst.
Qed.

Lemma bst_invariant_preserved_witness :
  bst_invariant (Empty (T:=nat)) ∧
  bst_invariant (insert (Node 2 (Node 1 Empty Empty) (Node 3 Empty Empty)) 4) ∧
  bst_invariant (remove (Node 2 (Node 1 Empty Empty) (Node 3 Empty Empty)) 2).
Proof.
  assert (Ht : bst_invariant (Node 2 (Node 1 Empty Empty) (Node 3 Empty Empty))).
  { split; [reflexivity|]. apply (bool_decide_unpack _). vm_compute. exact I. }
  split; [apply bst_invariant_preserved|]. split.
  - apply (proj2 bst_invariant_preserved _ 4 Ht).
  - apply (proj2 bst_invariant_preserved _ 2 Ht).
Defined.

(** C3.  For a search tree [tree] and a value [v], [remove tree v] holds the
    values of [tree] other than [v]; removing from the empty tree gives the
    empty tree; removing an absent value gives the tree back.  When the node
    that holds [v] has two children, it is replaced by a node holding the
    rightmost value [m] of its left subtree, which is the largest value of
    that subtree, over the left subtree with [m] removed and the right
    subtree as it was. *)
Theorem remove_predecessor_substitution {T : Type} `{StrictTotal T}
    (tree : Tree T) (v : T) :
  is_bst tree = true →
  (∀ a, a ∈ iterate (remove tree v) ↔ a ∈ iterate tree ∧ a ≠ v) ∧
  remove Empty v = Empty ∧
  (v ∉ iterate tree → remove tree v = tree) ∧
  (∀ l r, tree = Node v l r → l ≠ Empty → r ≠ Empty →
     ∃ m, rightmost l = inr m ∧ maximum (iterate l) = Some m ∧
          remove tree v = Node m (remove l m) r).
Proof.
  intros Hbst. split_and!.
  - intros a. by apply elem_of_remove.
  - done.
  - by apply remove_absent.
  - intros l r -> Hl Hr.
    apply is_bst_node in Hbst as (_ & _ & Hbl & _).
    destruct l as [|lv ll lr]; [done|]. destruct r as [|rv rl rr]; [done|].
    exists (rightmost_node lv lr). split_and!.
    + done.
    + by apply rightmost_maximum.
    + by apply (remove_two_children v _ _ lv ll lr rv rl rr).
Qed.

Lemma remove_predecessor_substitution_witness :
  let tree := Node 5 (Node 2 (Node 1 Empty Empty) (Node 3 Empty Empty))
                     (Node 8 Empty Empty) in
  (∀ a, a ∈ iterate (remove tree 5) ↔ a ∈ iterate tree ∧ a ≠ 5) ∧
  remove Empty 5 = Empty ∧
  (5 ∉ iterate tree → remove tree 5 = tree) ∧
  (∀ l r, tree = Node 5 l r → l ≠ Empty → r ≠ Empty →
     ∃ m, rightmost l = inr m ∧ maximum (iterate l) = Some m ∧
          remove tree 5 = Node m (remove l m) r).
Proof.
  intros tree. apply (remove_predecessor_substitution tree 5). reflexivity.
Defined.

(** C4.  For two distinct priority queues [x] and [y] holding search trees,
    [general_merge x y] returns [x]; afterwards iterating [x] yields the
    strictly ascending sequence of the values that [x] or [y] held, and [y]
    is empty.  The loop needs more fuel than [y] has values. *)
Theorem general_merge_union {T : Type} `{StrictTotal T}
    (σ : list (Tree T)) (x y : ref) (tx ty : Tree T) (fuel : nat) :
  σ !! x = Some tx → σ !! y = Some ty → x ≠ y →
  is_bst tx = true → is_bst ty = true →
  length (iterate ty) < fuel →
  ∃ σ' out,
    general_merge fuel x y σ = Done x σ' ∧
    SearchTree_iter x σ' = Done out σ' ∧
    ascending_distinct (iterate tx ++ iterate ty) out ∧
    SearchTree_bool y σ' = Done false σ'.
Proof.
  intros Hx Hy Hne Hbx Hby Hfuel.
  set (tx' := foldl insert tx (iterate ty)).
  exists (<[y := Empty]> (<[x := tx']> σ)), (iterate tx').
  assert (Hx' : <[y := Empty]> (<[x := tx']> σ) !! x = Some tx').
  { rewrite lookup_set_other by done. by apply lookup_set with tx. }
  assert (Hy' : <[y := Empty]> (<[x := tx']> σ) !! y = Some Empty).
  { apply lookup_set with ty. by rewrite lookup_set_other. }
  split_and!.
  - by apply general_merge_run.
  - by apply SearchTree_iter_run.
  - split.
    + by apply is_bst_sorted, foldl_insert_is_bst.
    + intros a. unfold tx'. by rewrite elem_of_foldl_insert, elem_of_app.
  - by apply (SearchTree_bool_run _ _ Empty).
Qed.

Lemma general_merge_union_witness :
  let tx := Node 1 (Node 0 Empty Empty) (Node 3 Empty Empty) in
  let ty := Node 3 (Node 2 Empty Empty) (Node 7 Empty Empty) in
  ∃ σ' out,
    general_merge 4 0 1 [tx; ty] = Done 0 σ' ∧
    SearchTree_iter 0 σ' = Done out σ' ∧
    ascending_distinct (iterate tx ++ iterate ty) out ∧
    SearchTree_bool 1 σ' = Done false σ'.
Proof.
  intros tx ty.
  apply (general_merge_union [tx; ty] 0 1 tx ty 4);
    [reflexivity | reflexivity | lia | reflexivity | reflexivity | simpl; lia].
Defined.

(** C5.  For two distinct non-empty priority queues [x] and [y] holding
    search trees, with the largest value of [x] below the smallest value of
    [y], [special_merge x y] returns [x]; afterwards the tree of [x] is its
    former tree with the values of [y] attached one after the other at the
    end of its right spine, iterating [x] yields the values of [x] followed
    by the values of [y], which is strictly ascending, and [y] is empty.
    The loop needs more fuel than [y] has values. *)
Theorem special_merge_concatenates {T : Type} `{StrictTotal T}
    (σ : list (Tree T)) (x y : ref) (tx ty : Tree T) (mx my : T)
    (fuel : nat) :
  σ !! x = Some tx → σ !! y = Some ty → x ≠ y →
  is_bst tx = true → is_bst ty = true →
  maximum (iterate tx) = Some mx → minimum (iterate ty) = Some my →
  ltb mx my = true →
  length (iterate ty) < fuel →
  ∃ σ',
    special_merge fuel x y σ = Done x σ' ∧
    σ' !! x = Some (foldl attach_right tx (iterate ty)) ∧
    SearchTree_iter x σ' = Done (iterate tx ++ iterate ty) σ' ∧
    StronglySorted less (iterate tx ++ iterate ty) ∧
    SearchTree_bool y σ' = Done false σ'.
Proof.
  intros Hx Hy Hne Hbx Hby Hmx Hmy Hlt Hfuel.
  assert (Hnx : tx ≠ Empty) by (by intros ->).
  set (tx' := foldl attach_right tx (iterate ty)).
  exists (<[y := Empty]> (<[x := tx']> σ)).
  assert (Hx' : <[y := Empty]> (<[x := tx']> σ) !! x = Some tx').
  { rewrite lookup_set_other by done. by apply lookup_set with tx. }
  assert (Hy' : <[y := Empty]> (<[x := tx']> σ) !! y = Some Empty).
  { apply lookup_set with ty. by rewrite lookup_set_other. }
  split_and!.
  - change (special_merge fuel x y σ) with
      (checked x y
         (let! xroot := get_root x in
          let! _ :=
            while fuel
              (λ _, let! root := get_root y in ret (truthy root))
              (λ d, let! m := PriorityQueue_delete_min y in
                    let! root := get_root x in
                    let! _ := set_root x (set_right d root (Node m Empty Empty)) in
                    ret (S d))
              (descend_right xroot) in
          ret x) σ).
    rewrite (checked_extrema σ x y tx ty mx my) by done. rewrite Hlt.
    rewrite (bind_Done _ _ _ _ _ (get_root_run _ _ _ Hx)).
    by rewrite (bind_Done _ _ _ _ _
                  (special_merge_loop _ _ _ _ _ _ Hne Hx Hnx Hy Hby Hfuel)).
  - done.
  - rewrite (SearchTree_iter_run _ _ _ Hx'). unfold tx'.
    by rewrite iterate_foldl_attach_right.
  - apply StronglySorted_app_2; [|by apply is_bst_sorted..].
    intros a b Ha Hb.
    apply maximum_Some in Hmx as [_ Hmx]. apply minimum_Some in Hmy as [_ Hmy].
    assert (Ham : less a my).
    { destruct (Hmx a Ha) as [-> | Ham]; [done|]. by apply ltb_trans with mx. }
    destruct (Hmy b Hb) as [-> | Hmb]; [done|]. by apply ltb_trans with my.
  - by apply (SearchTree_bool_run _ _ Empty).
Qed.

Lemma special_merge_concatenates_witness :
  let tx := Node 1 (Node 0 Empty Empty) (Node 3 Empty Empty) in
  let ty := Node 6 (Node 5 Empty Empty) (Node 7 Empty Empty) in
  ∃ σ',
    special_merge 4 0 1 [tx; ty] = Done 0 σ' ∧
    σ' !! 0 = Some (foldl attach_right tx (iterate ty)) ∧
    SearchTree_iter 0 σ' = Done (iterate tx ++ iterate ty) σ' ∧
    StronglySorted less (iterate tx ++ iterate ty) ∧
    SearchTree_bool 1 σ' = Done false σ'.
Proof.
  intros tx ty.
  apply (special_merge_concatenates [tx; ty] 0 1 tx ty 3 5 4);
    [reflexivity | reflexivity | lia | reflexivity | reflexivity
    | reflexivity | reflexivity | reflexivity | simpl; lia].
Defined.

(** C6.  For two priority queues [x] and [y], [general_merge_persistent x y]
    returns a queue that did not exist before; iterating it yields the
    strictly ascending sequence of the values that [x] or [y] hold, and
    every object of the store before the call, [x] and [y] among them, has
    the tree it had, so [x] and [y] iterate as before.  Every loop needs
    more fuel than [x] and [y] together have values. *)
Theorem general_merge_persistent_frame {T : Type} `{StrictTotal T}
    (σ : list (Tree T)) (x y : ref) (tx ty : Tree T) (fuel : nat) :
  σ !! x = Some tx → σ !! y = Some ty →
  length (iterate tx) + length (iterate ty) < fuel →
  ∃ z σ' out,
    general_merge_persistent fuel x y σ = Done z σ' ∧
    σ !! z = None ∧
    SearchTree_iter z σ' = Done out σ' ∧
    ascending_distinct (iterate tx ++ iterate ty) out ∧
    (∀ q t, σ !! q = Some t → σ' !! q = Some t) ∧
    SearchTree_iter x σ = Done (iterate tx) σ ∧
    SearchTree_iter x σ' = Done (iterate tx) σ' ∧
    SearchTree_iter y σ = Done (iterate ty) σ ∧
    SearchTree_iter y σ' = Done (iterate ty) σ'.
Proof.
  intros Hx Hy Hfuel.
  set (pq1 := iterate (foldl insert Empty (iterate tx))).
  set (pq2 := iterate (foldl insert Empty (iterate ty))).
  set (σ2 := (σ ++ [Empty]) ++ [Empty]).
  assert (Hlen1 : length pq1 ≤ length (iterate tx)).
  { pose proof (length_iterate_foldl_insert (iterate tx) Empty) as Hl.
    simpl in Hl. done. }
  assert (Hlen2 : length pq2 ≤ length (iterate ty)).
  { pose proof (length_iterate_foldl_insert (iterate ty) Empty) as Hl.
    simpl in Hl. done. }
  destruct (merge_loop_run fuel σ2 pq1 pq2 0 0 [])
    as (i & j & merged & Hloop & Hel); [lia|].
  set (tz := foldl insert Empty ((merged ++ drop i pq1) ++ drop j pq2)).
  assert (Hkeep : ∀ q t, σ !! q = Some t → (σ2 ++ [tz]) !! q = Some t).
  { intros q t Hq. unfold σ2. by do 3 apply lookup_app_l_Some. }
  exists (length σ2), (σ2 ++ [tz]), (iterate tz). split_and!.
  - unfold general_merge_persistent, pq_sort_of.
    rewrite (bind_Done _ _ σ pq1 (σ ++ [Empty])).
    2: { rewrite (bind_Done _ _ _ _ _ (SearchTree_iter_run _ _ _ Hx)).
         apply pq_sort_run. lia. }
    rewrite (bind_Done _ _ (σ ++ [Empty]) pq2 σ2).
    2: { rewrite (bind_Done _ _ _ (iterate ty) (σ ++ [Empty])).
         - apply pq_sort_run. lia.
         - apply SearchTree_iter_run. by apply lookup_app_l_Some. }
    rewrite (bind_Done _ _ _ _ _ Hloop).
    apply SearchTree_init_run.
  - apply lookup_ge_None. unfold σ2. rewrite !length_app. lia.
  - apply SearchTree_iter_run. by apply list_lookup_middle.
  - split.
    + by apply is_bst_sorted, foldl_insert_is_bst.
    + intros a. unfold tz. rewrite elem_of_foldl_insert, <- app_assoc, Hel.
      rewrite !drop_0. cbn [app iterate]. unfold pq1, pq2.
      rewrite !elem_of_app, !elem_of_foldl_insert. cbn [iterate].
      rewrite !elem_of_nil. tauto.
  - done.
  - by apply SearchTree_iter_run.
  - by apply SearchTree_iter_run, Hkeep.
  - by apply SearchTree_iter_run.
  - by apply SearchTree_iter_run, Hkeep.
Qed.

Lemma general_merge_persistent_frame_witness :
  let tx := Node 1 (Node 0 Empty Empty) (Node 3 Empty Empty) in
  let ty := Node 3 (Node 2 Empty Empty) (Node 7 Empty Empty) in
  let σ := [tx; ty] in
  ∃ z σ' out,
    general_merge_persistent 7 0 1 σ = Done z σ' ∧
    σ !! z = None ∧
    SearchTree_iter z σ' = Done out σ' ∧
    ascending_distinct (iterate tx ++ iterate ty) out ∧
    (∀ q t, σ !! q = Some t → σ' !! q = Some t) ∧
    SearchTree_iter 0 σ = Done (iterate tx) σ ∧
    SearchTree_iter 0 σ' = Done (iterate tx) σ' ∧
    SearchTree_iter 1 σ = Done (iterate ty) σ ∧
    SearchTree_iter 1 σ' = Done (iterate ty) σ'.
Proof.
  intros tx ty σ.
  apply (general_merge_persistent_frame σ 0 1 tx ty 7);
    [reflexivity | reflexivity | simpl; lia].
Defined.

(** C7.  For two non-empty priority queues [x] and [y] holding search trees,
    when the largest value of [x] is not below the smallest value of [y],
    [special_merge x y] and [special_merge_persistent x y] both raise
    [AssertionError]; neither returns, and the store is as it was. *)
Theorem special_merge_assertion {T : Type} `{StrictTotal T}
    (σ : list (Tree T)) (x y : ref) (tx ty : Tree T) (mx my : T)
    (fuel : nat) :
  σ !! x = Some tx → σ !! y = Some ty →
  is_bst tx = true → is_bst ty = true →
  maximum (iterate tx) = Some mx → minimum (iterate ty) = Some my →
  ltb mx my = false →
  special_merge fuel x y σ = Raised AssertionError σ ∧
  special_merge_persistent fuel x y σ = Raised AssertionError σ.
Proof.
  intros Hx Hy Hbx Hby Hmx Hmy Hlt.
  pose proof (λ rest, checked_extrema σ x y tx ty mx my rest
                        Hx Hy Hbx Hby Hmx Hmy) as Hcheck.
  rewrite Hlt in Hcheck. split; apply Hcheck.
Qed.

Lemma special_merge_assertion_witness :
  let tx := Node 0 Empty (Node 5 Empty Empty) in
  let ty := Node 3 Empty (Node 8 Empty Empty) in
  special_merge 9 0 1 [tx; ty] = Raised AssertionError [tx; ty] ∧
  special_merge_persistent 9 0 1 [tx; ty] = Raised AssertionError [tx; ty].
Proof.
  intros tx ty.
  apply (special_merge_assertion [tx; ty] 0 1 tx ty 5 3 9); reflexivity.
Defined.

(** C8.  On an empty priority queue, reading [min_val] and calling
    [delete_min] each raise at once, before any change to the store: the
    attribute read on the empty root fails ([AttributeError]), and the
    exception leaves the call. *)
Theorem extremum_of_empty_queue {T : Type} `{StrictTotal T}
    (σ : list (Tree T)) (q : ref) :
  σ !! q = Some Empty →
  leftmost (Empty (T:=T)) = inl AttributeError ∧
  PriorityQueue_min_val q σ = Raised AttributeError σ ∧
  PriorityQueue_delete_min q σ = Raised AttributeError σ.
Proof.
  intros Hq. split_and!.
  - done.
  - by apply min_val_empty.
  - by apply delete_min_empty.
Qed.

Lemma extremum_of_empty_queue_witness :
  leftmost (Empty (T:=nat)) = inl AttributeError ∧
  PriorityQueue_min_val 1 [Node 4 Empty Empty; Empty]
    = Raised AttributeError [Node 4 Empty Empty; Empty] ∧
  PriorityQueue_delete_min 1 [Node 4 Empty Empty; Empty]
    = Raised AttributeError [Node 4 Empty Empty; Empty].
Proof.
  apply (extremum_of_empty_queue [Node 4 Empty Empty; Empty] 1). reflexivity.
Defined.

(** C9.  Inserting a value that a search tree already holds returns the
    same tree, so the traversal is the same, and [SearchTree.insert] of such
    a value leaves the store, hence the iteration of the container, as it
    was. *)
Theorem insert_idempotent {T : Type} `{StrictTotal T}
    (σ : list (Tree T)) (q : ref) (tree : Tree T) (v : T) :
  σ !! q = Some tree → is_bst tree = true → v ∈ iterate tree →
  contains tree v = true ∧
  insert tree v = tree ∧
  iterate (insert tree v) = iterate tree ∧
  SearchTree_insert q v σ = Done tt σ ∧
  SearchTree_iter q σ = Done (iterate tree) σ.
Proof.
  intros Hq Hbst Hv. pose proof (insert_present tree v Hbst Hv) as Hid.
  split_and!.
  - by apply contains_spec.
  - done.
  - by rewrite Hid.
  - rewrite (SearchTree_insert_run _ _ _ v Hq), Hid.
    by rewrite list_insert_id.
  - by apply SearchTree_iter_run.
Qed.

Lemma insert_idempotent_witness :
  let tree := Node 2 (Node 1 Empty Empty) (Node 3 Empty Empty) in
  contains tree 3 = true ∧
  insert tree 3 = tree ∧
  iterate (insert tree 3) = iterate tree ∧
  SearchTree_insert 0 3 [tree] = Done tt [tree] ∧
  SearchTree_iter 0 [tree] = Done (iterate tree) [tree].
Proof.
  intros tree.
  apply (insert_idempotent [tree] 0 tree 3); [reflexivity | reflexivity |].
  apply (bool_decide_unpack _). vm_compute. exact I.
Defined.

(** C10.  When [x] is empty or [y] is empty, [special_merge x y] and
    [special_merge_persistent x y] raise [AttributeError] in their first
    statements, where the extremum of the empty tree is read; no merged
    queue is made and the store is as it was. *)
Theorem special_merge_requires_nonempty {T : Type} `{StrictTotal T}
    (σ : list (Tree T)) (x y : ref) (tx ty : Tree T) (fuel : nat) :
  σ !! x = Some tx → σ !! y = Some ty →
  tx = Empty ∨ ty = Empty →
  special_merge fuel x y σ = Raised AttributeError σ ∧
  special_merge_persistent fuel x y σ = Raised AttributeError σ.
Proof.
  intros Hx Hy [-> | ->].
  - split; by apply checked_x_empty.
  - split; by apply (checked_y_empty σ x y tx).
Qed.

Lemma special_merge_requires_nonempty_witness :
  special_merge 9 0 1 [Node 4 Empty Empty; Empty]
    = Raised AttributeError [Node 4 Empty Empty; Empty] ∧
  special_merge_persistent 9 0 1 [Node 4 Empty Empty; Empty]
    = Raised AttributeError [Node 4 Empty Empty; Empty].
Proof.
  apply (special_merge_requires_nonempty
           [Node 4 Empty Empty; Empty] 0 1 (Node 4 Empty Empty) Empty 9);
    [reflexivity | reflexivity | by right].
Defined.

(** * The tests and the examples of the specification *)

Example test_search_tree_sort_passes : returns test_search_tree_sort = true.
Proof. vm_compute. reflexivity. Qed.

Example test_pq_sort_passes : returns (test_pq_sort 6) = true.
Proof. vm_compute. reflexivity. Qed.

Example test_merge_passes : returns (test_merge 6) = true.
Proof. vm_compute. reflexivity. Qed.

Example test_merge_persistent_passes :
  returns (test_merge_persistent 11) = true.
Proof. vm_compute. reflexivity. Qed.

(** The repeated 1 collapses. *)
Example st_sort_dedup :
  ∃ σ', st_sort [3; 1; 4; 1; 5; 9; 2; 6] [] = Done [1; 2; 3; 4; 5; 6; 9] σ'.
Proof. eexists. reflexivity. Qed.

(** X17.  Why the merges ask for two objects: [general_merge(x, x)] on a
    non-empty queue that holds a search tree takes the smallest value out
    and puts it back, for ever; no amount of fuel lets it return. *)
Lemma general_merge_same_object {T : Type} `{StrictTotal T}
    (σ : list (Tree T)) (x : ref) (v : T) (l r : Tree T) (fuel : nat) :
  σ !! x = Some (Node v l r) → is_bst (Node v l r) = true →
  general_merge fuel x x σ = OutOfFuel.
Proof.
  intros Hx Hbst. unfold general_merge.
  enough (Hloop : ∀ t, is_bst t = true → t ≠ Empty → ∀ σ, σ !! x = Some t →
            while fuel
              (λ _, let! root := get_root x in ret (truthy root))
              (λ _, let! m := PriorityQueue_delete_min x in
                    SearchTree_insert x m)
              tt σ = OutOfFuel).
  { unfold bind at 1. by rewrite (Hloop (Node v l r)). }
  clear σ v l r Hx Hbst.
  induction fuel as [|fuel IH]; intros t Hbst Hne σ Hx; [done|].
  destruct t as [|v l r]; [done|]. cbn [while].
  rewrite (bind_Done _ _ σ true σ)
    by by rewrite (bind_Done _ _ _ _ _ (get_root_run _ _ _ Hx)).
  set (m := leftmost_node v l). set (t := Node v l r) in *.
  rewrite (bind_Done _ _ σ tt (<[x := insert (remove t m) m]> σ)).
  - apply (IH (insert (remove t m) m)).
    + by apply insert_is_bst, remove_is_bst.
    + intros Hempty. assert (Hm : m ∈ iterate (insert (remove t m) m)).
      { apply elem_of_insert. by left. }
      rewrite Hempty in Hm. by apply elem_of_nil in Hm.
    + by apply lookup_set with t.
  - rewrite (bind_Done _ _ _ _ _ (delete_min_run _ _ _ _ _ Hx)).
    rewrite (SearchTree_insert_run _ _ (remove t m))
      by by apply lookup_set with t.
    by rewrite list_insert_insert_eq.
Qed.

Lemma general_merge_same_object_witness :
  general_merge 50 0 0 [Node 5 (Node 2 Empty Empty) (Node 8 Empty Empty)]
    = OutOfFuel.
Proof.
  apply (general_merge_same_object
           [Node 5 (Node 2 Empty Empty) (Node 8 Empty Empty)] 0
           5 (Node 2 Empty Empty) (Node 8 Empty Empty) 50); reflexivity.
Defined.

(** * Further facts *)

Section MoreFacts.
Context {T : Type} `{StrictTotal T}.

Implicit Types (t l r : Tree T) (a b m v w val : T) (xs ys data : list T).
Implicit Types (σ : list (Tree T)) (q x y : ref).

Lemma contains_sound t v : contains t v = true → v ∈ iterate t.
Proof.
  induction t as [|u l IHl r IHr]; [done|]. simpl contains.
  rewrite elem_of_iterate_node.
  destruct (ltb v u) eqn:Hlt; [|destruct (ltb u v) eqn:Hgt]; auto.
  intros _. right; left. by apply ltb_total.
Qed.

Lemma contains_insert_same t v : contains (insert t v) v = true.
Proof.
  induction t as [|u l IHl r IHr]; simpl.
  - by rewrite ltb_irrefl.
  - destruct (ltb v u) eqn:Hlt; [|destruct (ltb u v) eqn:Hgt]; simpl;
      by rewrite Hlt, ?Hgt.
Qed.

Lemma contains_insert_other t v w :
  w ≠ v → contains (insert t v) w = contains t w.
Proof.
  intros Hne. induction t as [|u l IHl r IHr]; simpl.
  - destruct (ltb_cases w v) as [Hlt | [? | Hgt]]; [|done|].
    + by rewrite Hlt.
    + by rewrite (ltb_asym _ _ Hgt), Hgt.
  - destruct (ltb v u) eqn:Hlt; [|destruct (ltb u v) eqn:Hgt]; simpl;
      by rewrite ?IHl, ?IHr.
Qed.

Lemma remove_insert_absent t v : v ∉ iterate t → remove (insert t v) v = t.
Proof.
  induction t as [|u l IHl r IHr]; intros Hnin; simpl.
  - by rewrite ltb_irrefl.
  - rewrite elem_of_iterate_node in Hnin.
    destruct (ltb v u) eqn:Hlt; [|destruct (ltb u v) eqn:Hgt]; simpl.
    + rewrite Hlt, IHl; tauto.
    + rewrite Hlt, Hgt, IHr; tauto.
    + destruct Hnin. right; left. by apply ltb_total.
Qed.

Lemma sorted_is_bst t : StronglySorted less (iterate t) → is_bst t = true.
Proof.
  induction t as [|v l IHl r IHr]; [done|]. cbn [iterate].
  intros (Hlr & Hl & Hr%StronglySorted_cons)%StronglySorted_app.
  destruct Hr as [Hv Hr]. rewrite Forall_forall in Hv.
  apply is_bst_node. split_and!; auto.
  intros a Ha. apply Hlr; [done|]. apply list_elem_of_here.
Qed.

(** A traversal that is strictly ascending is the traversal of the tree
    built from it. *)
Lemma build_sorted xs :
  StronglySorted less xs → iterate (foldl insert Empty xs) = xs.
Proof.
  intros Hxs. apply (ascending_distinct_unique xs).
  - apply build_ascending_distinct.
  - by split.
Qed.

(** Inserting a value above all values of a tree attaches it at the end of
    the right spine. *)
Lemma insert_above t m :
  t ≠ Empty → (∀ a, a ∈ iterate t → ltb a m = true) →
  insert t m = attach_right t m.
Proof.
  induction t as [|v l _ r IHr]; [done|]. intros _ Hall.
  assert (Hv : ltb v m = true).
  { apply Hall, elem_of_iterate_node. auto. }
  simpl insert. rewrite (ltb_asym _ _ Hv), Hv.
  destruct r as [|rv rl rr]; [done|].
  rewrite attach_right_node, IHr; [done|done|].
  intros a Ha. apply Hall, elem_of_iterate_node. auto.
Qed.

Lemma foldl_insert_above t ys :
  t ≠ Empty → (∀ a b, a ∈ iterate t → b ∈ ys → ltb a b = true) →
  StronglySorted less ys →
  foldl insert t ys = foldl attach_right t ys.
Proof.
  revert t. induction ys as [|m ys IH]; intros t Ht Hall Hys; [done|].
  apply StronglySorted_cons in Hys as [Hm Hys]. rewrite Forall_forall in Hm.
  simpl. rewrite (insert_above t m Ht).
  - apply IH; [by apply attach_right_nonempty| |done].
    intros a b Ha Hb. rewrite iterate_attach_right in Ha by done.
    apply elem_of_app in Ha as [Ha | Ha%list_elem_of_singleton].
    + apply Hall; [done|]. by apply list_elem_of_further.
    + subst a. by apply Hm.
  - intros a Ha. apply Hall; [done|]. apply list_elem_of_here.
Qed.

Lemma descend_foldl_attach_right t ys :
  t ≠ Empty →
  descend_right (foldl attach_right t ys) = descend_right t + length ys.
Proof.
  revert t. induction ys as [|m ys IH]; intros t Ht; simpl; [lia|].
  rewrite IH by by apply attach_right_nonempty.
  rewrite descend_attach_right by done. lia.
Qed.

(** The values of [x] below the values of [y]. *)
Lemma extrema_separate t1 t2 mx my :
  maximum (iterate t1) = Some mx → minimum (iterate t2) = Some my →
  ltb mx my = true →
  ∀ a b, a ∈ iterate t1 → b ∈ iterate t2 → ltb a b = true.
Proof.
  intros [_ Hmx]%maximum_Some [_ Hmy]%minimum_Some Hlt a b Ha Hb.
  assert (Ham : ltb a my = true).
  { destruct (Hmx a Ha) as [-> | Ham]; [done|]. by apply ltb_trans with mx. }
  destruct (Hmy b Hb) as [-> | Hmb]; [done|]. by apply ltb_trans with my.
Qed.


(** A value of a strictly ascending list stands at one place. *)
Lemma sorted_delete xs v front back :
  StronglySorted less (front ++ v :: back) →
  StronglySorted less xs →
  (∀ a, a ∈ xs ↔ a ∈ front ++ v :: back ∧ a ≠ v) →
  xs = front ++ back.
Proof.
  intros Hs Hxs Hel.
  pose proof (sorted_NoDup _ Hs) as Hnd.
  apply NoDup_app in Hnd as (_ & Hfront & Hback%NoDup_cons).
  apply StronglySorted_app in Hs as (Hfb & Hsf & Hsb%StronglySorted_cons).
  apply sorted_unique; [done| |].
  - apply StronglySorted_app_2; [|done|tauto].
    intros a b Ha Hb. apply Hfb; [done|]. by apply list_elem_of_further.
  - intros a. rewrite Hel, !elem_of_app, elem_of_cons. split.
    + intros [[? | [? | ?]] ?]; tauto.
    + intros [Ha | Ha]; (split; [tauto|]); intros ->.
      * by apply (Hfront v Ha), list_elem_of_here.
      * tauto.
Qed.

End MoreFacts.

(** * Further properties of the code *)

(** X1.  [contains] never reports a value that the traversal does not
    yield, on any tree; on a search tree it reports every value of the
    traversal.  [__contains__] answers with [contains] of the root and
    leaves the store as it was. *)
Theorem contains_iff_member {T : Type} `{StrictTotal T}
    (σ : list (Tree T)) (q : ref) (tree : Tree T) (v : T) :
  σ !! q = Some tree →
  (contains tree v = true → v ∈ iterate tree) ∧
  (is_bst tree = true → v ∈ iterate tree → contains tree v = true) ∧
  SearchTree_contains q v σ = Done (contains tree v) σ.
Proof.
  intros Hq. split_and!.
  - apply contains_sound.
  - intros Hbst. by apply contains_spec.
  - unfold SearchTree_contains.
    by rewrite (bind_Done _ _ _ _ _ (get_root_run _ _ _ Hq)).
Qed.

Lemma contains_iff_member_witness :
  let tree := Node 5 (Node 2 Empty Empty) (Node 8 Empty Empty) in
  8 ∈ iterate tree ∧ contains tree 8 = true ∧
  SearchTree_contains 0 8 [tree] = Done true [tree].
Proof.
  intros tree.
  destruct (contains_iff_member [tree] 0 tree 8 eq_refl) as (Hs & Hc & Hm).
  split; [by apply Hs|]. split; [|exact Hm].
  apply Hc; [reflexivity | by apply Hs].
Defined.

(** X2.  After [insert(tree, v)] the value [v] is found by [contains], and
    every other value is found exactly when it was found before; this holds
    for every tree, search tree or not.  So [v in st] is true right after
    [st.insert(v)]. *)
Theorem contains_after_insert {T : Type} `{StrictTotal T}
    (σ : list (Tree T)) (q : ref) (tree : Tree T) (v w : T) :
  σ !! q = Some tree →
  contains (insert tree v) v = true ∧
  (w ≠ v → contains (insert tree v) w = contains tree w) ∧
  (let! _ := SearchTree_insert q v in SearchTree_contains q v) σ
    = Done true (<[q := insert tree v]> σ).
Proof.
  intros Hq. split_and!.
  - apply contains_insert_same.
  - apply contains_insert_other.
  - rewrite (bind_Done _ _ _ _ _ (SearchTree_insert_run _ _ _ v Hq)).
    unfold SearchTree_contains.
    rewrite (bind_Done _ _ _ (insert tree v) (<[q := insert tree v]> σ)).
    + unfold ret. by rewrite contains_insert_same.
    + apply get_root_run. by apply lookup_set with tree.
Qed.

Lemma contains_after_insert_witness :
  let tree := Node 5 (Node 2 Empty Empty) (Node 8 Empty Empty) in
  contains (insert tree 3) 3 = true ∧
  contains (insert tree 3) 7 = contains tree 7 ∧
  (let! _ := SearchTree_insert 0 3 in SearchTree_contains 0 3) [tree]
    = Done true (<[0 := insert tree 3]> [tree]).
Proof.
  intros tree.
  destruct (contains_after_insert [tree] 0 tree 3 7 eq_refl) as (Hv & Hw & Hm).
  split; [exact Hv|]. split; [apply Hw; lia | exact Hm].
Defined.

(** X3.  On a search tree, after [remove(tree, v)] the value [v] is no
    longer found by [contains], and every other value is found exactly when
    it was found before.  So [v in st] is false right after
    [st.remove(v)]. *)
Theorem contains_after_remove {T : Type} `{StrictTotal T}
    (σ : list (Tree T)) (q : ref) (tree : Tree T) (v w : T) :
  σ !! q = Some tree → is_bst tree = true →
  contains (remove tree v) v = false ∧
  (w ≠ v → contains (remove tree v) w = contains tree w) ∧
  (let! _ := SearchTree_remove q v in SearchTree_contains q v) σ
    = Done false (<[q := remove tree v]> σ).
Proof.
  intros Hq Hbst.
  pose proof (remove_is_bst tree v Hbst) as Hbst'.
  assert (Hv : contains (remove tree v) v = false).
  { apply not_true_is_false. intros Hc.
    apply contains_spec in Hc; [|done].
    apply elem_of_remove in Hc; [|done]. by destruct Hc. }
  split_and!.
  - done.
  - intros Hne. apply eq_true_iff_eq.
    rewrite !contains_spec, elem_of_remove by done. tauto.
  - rewrite (bind_Done _ _ _ _ _ (SearchTree_remove_run _ _ _ v Hq)).
    unfold SearchTree_contains.
    rewrite (bind_Done _ _ _ (remove tree v) (<[q := remove tree v]> σ)).
    + unfold ret. by rewrite Hv.
    + apply get_root_run. by apply lookup_set with tree.
Qed.

Lemma contains_after_remove_witness :
  let tree := Node 5 (Node 2 Empty Empty) (Node 8 Empty Empty) in
  contains (remove tree 5) 5 = false ∧
  contains (remove tree 5) 8 = contains tree 8 ∧
  (let! _ := SearchTree_remove 0 5 in SearchTree_contains 0 5) [tree]
    = Done false (<[0 := remove tree 5]> [tree]).
Proof.
  intros tree.
  destruct (contains_after_remove [tree] 0 tree 5 8) as (Hv & Hw & Hm);
    [reflexivity | reflexivity |].
  split; [exact Hv|]. split; [apply Hw; lia | exact Hm].
Defined.

(** X4.  Removing a value right after inserting it gives back the very
    tree, for every tree that did not hold the value.  Inserting a value
    right after removing it from a search tree that held it gives a tree
    with the same traversal. *)
Theorem insert_remove_round_trip {T : Type} `{StrictTotal T}
    (tree : Tree T) (v : T) :
  (v ∉ iterate tree → remove (insert tree v) v = tree) ∧
  (is_bst tree = true → v ∈ iterate tree →
     iterate (insert (remove tree v) v) = iterate tree).
Proof.
  split; [apply remove_insert_absent|].
  intros Hbst Hv. apply sorted_unique.
  - by apply is_bst_sorted, insert_is_bst, remove_is_bst.
  - by apply is_bst_sorted.
  - intros a. rewrite elem_of_insert, elem_of_remove by done.
    split; [by intros [-> | [? _]]|].
    intros Ha. destruct (ltb_cases a v) as [Hlt | [-> | Hlt]]; auto.
    + right. split; [done|]. by apply ltb_neq.
    + right. split; [done|]. intros ->. by rewrite ltb_irrefl in Hlt.
Qed.

Lemma insert_remove_round_trip_witness :
  let tree := Node 5 (Node 2 Empty Empty) (Node 8 Empty Empty) in
  remove (insert tree 3) 3 = tree ∧
  iterate (insert (remove tree 5) 5) = iterate tree.
Proof.
  intros tree. split.
  - apply (proj1 (insert_remove_round_trip tree 3)).
    apply (bool_decide_unpack _). vm_compute. exact I.
  - apply (proj2 (insert_remove_round_trip tree 5)); [reflexivity|].
    apply (bool_decide_unpack _). vm_compute. exact I.
Defined.

(** X5.  On every tree, [leftmost] returns the first value of the traversal
    and [rightmost] the last one; each raises exactly on the empty tree. *)
Theorem ends_of_traversal {T : Type} `{Ordered T} (tree : Tree T) :
  match leftmost tree with
  | inr m => head (iterate tree) = Some m
  | inl e => e = AttributeError ∧ tree = Empty
  end ∧
  match rightmost tree with
  | inr m => last (iterate tree) = Some m
  | inl e => e = AttributeError ∧ tree = Empty
  end.
Proof.
  destruct tree as [|v l r]; [done|]. split; simpl.
  - revert v. generalize (iterate r).
    induction l as [|u l IHl r' _]; intros rest v; [done|].
    cbn [iterate leftmost_node]. rewrite <- app_assoc. apply IHl.
  - revert v. generalize (iterate l).
    induction r as [|u l' _ r IHr]; intros front v.
    + apply last_snoc.
    + cbn [iterate rightmost_node].
      rewrite app_comm_cons, app_assoc. apply IHr.
Qed.

(** X6.  A tree passes the order check at every node exactly when its
    traversal is strictly ascending. *)
Theorem is_bst_iff_sorted {T : Type} `{StrictTotal T} (tree : Tree T) :
  is_bst tree = true ↔ StronglySorted less (iterate tree).
Proof. split; [apply is_bst_sorted | apply sorted_is_bst]. Qed.

Lemma is_bst_iff_sorted_witness :
  is_bst (Node 5 (Node 2 Empty Empty) (Node 8 Empty Empty)) = true
  ↔ StronglySorted less [2; 5; 8].
Proof.
  apply (is_bst_iff_sorted (Node 5 (Node 2 Empty Empty) (Node 8 Empty Empty))).
Defined.

(** X7.  What [st_sort] returns depends on the values of its input only,
    not on their order or on how often they occur, and sorting what
    [st_sort] returned returns it again. *)
Theorem st_sort_of_values {T : Type} `{StrictTotal T}
    (data data' : list T) (σ : list (Tree T)) :
  (∀ a, a ∈ data ↔ a ∈ data') →
  ∃ out,
    (∃ σ', st_sort data σ = Done out σ') ∧
    (∃ σ', st_sort data' σ = Done out σ') ∧
    (∃ σ', st_sort out σ = Done out σ').
Proof.
  intros Hsame. set (out := iterate (foldl insert Empty data)).
  assert (Hout' : iterate (foldl insert Empty data') = out).
  { apply (ascending_distinct_unique data); [|apply build_ascending_distinct].
    destruct (build_ascending_distinct data') as [Hs Hel].
    split; [done|]. intros a. by rewrite Hel, Hsame. }
  assert (Hagain : iterate (foldl insert Empty out) = out).
  { apply build_sorted, build_ascending_distinct. }
  exists out. split_and!; eexists; rewrite st_sort_run.
  - done.
  - by rewrite Hout'.
  - by rewrite Hagain.
Qed.

Lemma st_sort_of_values_witness :
  ∃ out,
    (∃ σ', st_sort [3; 1; 2; 1] [] = Done out σ') ∧
    (∃ σ', st_sort [2; 3; 3; 1] [] = Done out σ') ∧
    (∃ σ', st_sort out [] = Done out σ').
Proof.
  apply (st_sort_of_values [3; 1; 2; 1] [2; 3; 3; 1] []).
  intros a. rewrite !elem_of_cons, !elem_of_nil. tauto.
Defined.

(** X8.  [SearchTree(data, tree)] on a search tree [tree] makes a new
    object; it holds a search tree whose values are those of [tree] and
    those of [data], and every object that existed keeps its tree. *)
Theorem init_from_tree {T : Type} `{StrictTotal T}
    (data : list T) (tree : Tree T) (σ : list (Tree T)) :
  is_bst tree = true →
  ∃ self σ' root,
    SearchTree_init data tree σ = Done self σ' ∧
    σ !! self = None ∧ σ' !! self = Some root ∧
    is_bst root = true ∧
    (∀ a, a ∈ iterate root ↔ a ∈ iterate tree ∨ a ∈ data) ∧
    (∀ q t, σ !! q = Some t → σ' !! q = Some t).
Proof.
  intros Hbst.
  exists (length σ), (σ ++ [foldl insert tree data]), (foldl insert tree data).
  split_and!.
  - apply SearchTree_init_run.
  - by apply lookup_ge_None.
  - by apply list_lookup_middle.
  - by apply foldl_insert_is_bst.
  - apply elem_of_foldl_insert.
  - intros q t Hq. by apply lookup_app_l_Some.
Qed.

Lemma init_from_tree_witness :
  let tree := Node 5 (Node 2 Empty Empty) (Node 8 Empty Empty) in
  ∃ self σ' root,
    SearchTree_init [7; 2; 9] tree [tree] = Done self σ' ∧
    [tree] !! self = None ∧ σ' !! self = Some root ∧
    is_bst root = true ∧
    (∀ a, a ∈ iterate root ↔ a ∈ iterate tree ∨ a ∈ [7; 2; 9]) ∧
    (∀ q t, [tree] !! q = Some t → σ' !! q = Some t).
Proof.
  intros tree. apply (init_from_tree [7; 2; 9] tree [tree]). reflexivity.
Defined.

(** X9.  On a non-empty queue that holds a search tree, [min_val] returns
    the smallest value and leaves the store as it was; [delete_min] returns
    that value, and the queue then holds a search tree whose traversal is
    the former traversal without its first value. *)
Theorem delete_min_takes_smallest {T : Type} `{StrictTotal T}
    (σ : list (Tree T)) (q : ref) (tree : Tree T) :
  σ !! q = Some tree → is_bst tree = true → tree ≠ Empty →
  ∃ m rest,
    minimum (iterate tree) = Some m ∧
    PriorityQueue_min_val q σ = Done m σ ∧
    PriorityQueue_delete_min q σ = Done m (<[q := rest]> σ) ∧
    iterate tree = m :: iterate rest ∧
    is_bst rest = true.
Proof.
  intros Hq Hbst Hne. destruct tree as [|v l r]; [done|].
  exists (leftmost_node v l),
    (remove (Node v l r) (leftmost_node v l)).
  split_and!.
  - by apply leftmost_minimum.
  - by apply min_val_run with r.
  - by apply delete_min_run.
  - by apply iterate_remove_leftmost.
  - by apply remove_is_bst.
Qed.

Lemma delete_min_takes_smallest_witness :
  let tree := Node 5 (Node 2 Empty Empty) (Node 8 Empty Empty) in
  ∃ m rest,
    minimum (iterate tree) = Some m ∧
    PriorityQueue_min_val 0 [tree] = Done m [tree] ∧
    PriorityQueue_delete_min 0 [tree] = Done m (<[0 := rest]> [tree]) ∧
    iterate tree = m :: iterate rest ∧
    is_bst rest = true.
Proof.
  intros tree.
  apply (delete_min_takes_smallest [tree] 0 tree); [reflexivity..|done].
Defined.

(** X10.  Removing a value that a search tree holds takes it out of its one
    place in the traversal and keeps the other values in their order.
    [st.remove(v)] on an empty container returns without an error and
    changes nothing. *)
Theorem remove_one_place {T : Type} `{StrictTotal T}
    (σ : list (Tree T)) (q : ref) (tree : Tree T) (v : T) :
  is_bst tree = true → v ∈ iterate tree →
  (∃ front back,
     iterate tree = front ++ v :: back ∧
     iterate (remove tree v) = front ++ back) ∧
  (σ !! q = Some Empty → SearchTree_remove q v σ = Done tt σ).
Proof.
  intros Hbst Hv. split.
  - destruct (list_elem_of_split _ _ Hv) as (front & back & Hsplit).
    exists front, back. split; [done|].
    apply (sorted_delete _ v).
    + rewrite <- Hsplit. by apply is_bst_sorted.
    + by apply is_bst_sorted, remove_is_bst.
    + intros a. rewrite <- Hsplit. by apply elem_of_remove.
  - intros Hq. rewrite (SearchTree_remove_run _ _ _ v Hq).
    by rewrite list_insert_id.
Qed.

Lemma remove_one_place_witness :
  let tree := Node 5 (Node 2 Empty Empty) (Node 8 Empty Empty) in
  (∃ front back,
     iterate tree = front ++ 5 :: back ∧
     iterate (remove tree 5) = front ++ back) ∧
  SearchTree_remove 1 5 [tree; Empty] = Done tt [tree; Empty].
Proof.
  intros tree.
  destruct (remove_one_place [tree; Empty] 1 tree 5) as [Hplace Hempty].
  - reflexivity.
  - apply (bool_decide_unpack _). vm_compute. exact I.
  - split; [exact Hplace | apply Hempty; reflexivity].
Defined.

(** X11.  Inserting a value that [contains] does not find puts it at one
    place of the traversal and keeps every other value, in order; this
    holds for every tree. *)
Theorem insert_one_place {T : Type} `{StrictTotal T}
    (tree : Tree T) (v : T) :
  contains tree v = false →
  ∃ front back,
    iterate tree = front ++ back ∧
    iterate (insert tree v) = front ++ v :: back.
Proof.
  induction tree as [|u l IHl r IHr]; intros Hc.
  - by exists [], [].
  - simpl in Hc |- *.
    destruct (ltb v u) eqn:Hlt; [|destruct (ltb u v) eqn:Hgt]; [| |done].
    + destruct (IHl Hc) as (front & back & Hl & Hl').
      exists front, (back ++ u :: iterate r). simpl.
      rewrite Hl, Hl'. by rewrite <- !app_assoc.
    + destruct (IHr Hc) as (front & back & Hr & Hr').
      exists (iterate l ++ u :: front), back. simpl.
      rewrite Hr, Hr'. by rewrite <- !app_assoc.
Qed.

Lemma insert_one_place_witness :
  let tree := Node 5 (Node 2 Empty Empty) (Node 8 Empty Empty) in
  ∃ front back,
    iterate tree = front ++ back ∧
    iterate (insert tree 7) = front ++ 7 :: back.
Proof.
  intros tree. apply (insert_one_place tree 7). reflexivity.
Defined.

(** X12.  For two non-empty queues holding search trees, with the largest
    value of [x] below the smallest value of [y],
    [special_merge_persistent x y] returns a queue that did not exist
    before; iterating it yields the values of [x] followed by the values of
    [y], and every object that existed, [x] and [y] among them, keeps its
    tree.  Each drain loop needs more fuel than the queue it sorts has
    values. *)
Theorem special_merge_persistent_concatenates {T : Type} `{StrictTotal T}
    (σ : list (Tree T)) (x y : ref) (tx ty : Tree T) (mx my : T)
    (fuel : nat) :
  σ !! x = Some tx → σ !! y = Some ty →
  is_bst tx = true → is_bst ty = true →
  maximum (iterate tx) = Some mx → minimum (iterate ty) = Some my →
  ltb mx my = true →
  length (iterate tx) < fuel → length (iterate ty) < fuel →
  ∃ z σ',
    special_merge_persistent fuel x y σ = Done z σ' ∧
    σ !! z = None ∧
    SearchTree_iter z σ' = Done (iterate tx ++ iterate ty) σ' ∧
    (∀ q t, σ !! q = Some t → σ' !! q = Some t).
Proof.
  intros Hx Hy Hbx Hby Hmx Hmy Hlt Hfx Hfy.
  set (σ2 := (σ ++ [Empty]) ++ [Empty]).
  set (tz := foldl insert Empty (iterate tx ++ iterate ty)).
  assert (Hsorted : StronglySorted less (iterate tx ++ iterate ty)).
  { apply StronglySorted_app_2; [|by apply is_bst_sorted..].
    by apply (extrema_separate tx ty mx my). }
  exists (length σ2), (σ2 ++ [tz]). split_and!.
  - change (special_merge_persistent fuel x y σ) with
      (checked x y
         (let! pq1 := pq_sort_of fuel x in
          let! pq2 := pq_sort_of fuel y in
          SearchTree_init (pq1 ++ pq2) Empty) σ).
    rewrite (checked_extrema σ x y tx ty mx my) by done. rewrite Hlt.
    unfold pq_sort_of.
    rewrite (bind_Done _ _ σ (iterate tx) (σ ++ [Empty])).
    2: { rewrite (bind_Done _ _ _ _ _ (SearchTree_iter_run _ _ _ Hx)).
         rewrite pq_sort_run by done.
         by rewrite build_sorted by by apply is_bst_sorted. }
    rewrite (bind_Done _ _ (σ ++ [Empty]) (iterate ty) σ2).
    2: { rewrite (bind_Done _ _ _ (iterate ty) (σ ++ [Empty])).
         - rewrite pq_sort_run by done.
           by rewrite build_sorted by by apply is_bst_sorted.
         - apply SearchTree_iter_run. by apply lookup_app_l_Some. }
    apply SearchTree_init_run.
  - apply lookup_ge_None. unfold σ2. rewrite !length_app. lia.
  - rewrite (SearchTree_iter_run _ _ tz) by by apply list_lookup_middle.
    unfold tz. by rewrite build_sorted.
  - intros q t Hq. unfold σ2. by do 3 apply lookup_app_l_Some.
Qed.

Lemma special_merge_persistent_concatenates_witness :
  let tx := Node 1 (Node 0 Empty Empty) (Node 3 Empty Empty) in
  let ty := Node 6 (Node 5 Empty Empty) (Node 7 Empty Empty) in
  ∃ z σ',
    special_merge_persistent 4 0 1 [tx; ty] = Done z σ' ∧
    [tx; ty] !! z = None ∧
    SearchTree_iter z σ' = Done (iterate tx ++ iterate ty) σ' ∧
    (∀ q t, [tx; ty] !! q = Some t → σ' !! q = Some t).
Proof.
  intros tx ty.
  apply (special_merge_persistent_concatenates [tx; ty] 0 1 tx ty 3 5 4);
    [reflexivity | reflexivity | reflexivity | reflexivity | reflexivity
    | reflexivity | reflexivity | simpl; lia | simpl; lia].
Defined.



(** X14.  A strictly ascending input builds a tree that is one right spine:
    every insertion goes to the end of the spine, whose length is the
    number of values; nothing rebalances. *)
Theorem ascending_input_right_spine {T : Type} `{StrictTotal T}
    (a : T) (data : list T) (σ : list (Tree T)) :
  StronglySorted less (a :: data) →
  ∃ self root,
    SearchTree_init (a :: data) Empty σ = Done self (σ ++ [root]) ∧
    root = foldl attach_right (Node a Empty Empty) data ∧
    descend_right root = length data ∧
    iterate root = a :: data.
Proof.
  intros [Ha Hdata]%StronglySorted_cons. rewrite Forall_forall in Ha.
  exists (length σ), (foldl insert Empty (a :: data)).
  assert (Hroot : foldl insert Empty (a :: data)
                  = foldl attach_right (Node a Empty Empty) data).
  { simpl. apply foldl_insert_above; [done| |done].
    intros c b [Hc | [-> | Hc]]%elem_of_iterate_node Hb;
      [by apply elem_of_nil in Hc | by apply Ha | by apply elem_of_nil in Hc]. }
  split_and!.
  - apply SearchTree_init_run.
  - done.
  - rewrite Hroot, descend_foldl_attach_right by done. simpl. lia.
  - rewrite Hroot, iterate_foldl_attach_right by done. done.
Qed.

Lemma ascending_input_right_spine_witness :
  ∃ self root,
    SearchTree_init [1; 2; 3; 4] Empty [] = Done self ([] ++ [root]) ∧
    root = foldl attach_right (Node 1 Empty Empty) [2; 3; 4] ∧
    descend_right root = 3 ∧
    iterate root = [1; 2; 3; 4].
Proof.
  apply (ascending_input_right_spine 1 [2; 3; 4] []).
  repeat constructor.
Defined.

(** X15.  [general_merge(x, y)] with [y] empty returns [x] at the first
    test of its loop and changes nothing, whatever [x] holds, even when [x]
    and [y] are one object; the special merges raise there. *)
Theorem general_merge_empty {T : Type} `{StrictTotal T}
    (σ : list (Tree T)) (x y : ref) (fuel : nat) :
  σ !! y = Some Empty → 0 < fuel →
  general_merge fuel x y σ = Done x σ.
Proof.
  intros Hy Hfuel. destruct fuel as [|fuel]; [lia|].
  unfold general_merge. cbn [while].
  rewrite (bind_Done _ _ σ tt σ); [done|].
  rewrite (bind_Done _ _ σ false σ); [done|].
  by rewrite (bind_Done _ _ _ _ _ (get_root_run _ _ _ Hy)).
Qed.

Lemma general_merge_empty_witness :
  general_merge 1 0 1 [Node 4 Empty Empty; Empty]
    = Done 0 [Node 4 Empty Empty; Empty].
Proof.
  apply (general_merge_empty [Node 4 Empty Empty; Empty] 0 1 1);
    [reflexivity | lia].
Defined.

(** X16.  [pq_sort(q)] on a container [q] does not drain [q]: it drains a
    queue of its own, every object that existed keeps its tree, and what it
    returns is the strictly ascending sequence of the values of [q], which
    is the traversal of [q] itself when [q] holds a search tree. *)
Theorem pq_sort_keeps_its_argument {T : Type} `{StrictTotal T}
    (σ : list (Tree T)) (q : ref) (tree : Tree T) (fuel : nat) :
  σ !! q = Some tree → length (iterate tree) < fuel →
  ∃ out,
    pq_sort_of fuel q σ = Done out (σ ++ [Empty]) ∧
    ascending_distinct (iterate tree) out ∧
    (is_bst tree = true → out = iterate tree).
Proof.
  intros Hq Hfuel. exists (iterate (foldl insert Empty (iterate tree))).
  split_and!.
  - unfold pq_sort_of.
    rewrite (bind_Done _ _ _ _ _ (SearchTree_iter_run _ _ _ Hq)).
    by apply pq_sort_run.
  - apply build_ascending_distinct.
  - intros Hbst. by apply build_sorted, is_bst_sorted.
Qed.

Lemma pq_sort_keeps_its_argument_witness :
  let tree := Node 5 (Node 2 Empty Empty) (Node 8 Empty Empty) in
  ∃ out,
    pq_sort_of 4 0 [tree] = Done out ([tree] ++ [Empty]) ∧
    ascending_distinct (iterate tree) out ∧
    (is_bst tree = true → out = iterate tree).
Proof.
  intros tree.
  apply (pq_sort_keeps_its_argument [tree] 0 tree 4); [reflexivity|simpl; lia].
Defined.

(** X18.  [bool(st)] is false exactly when iterating [st] yields nothing,
    and a container built from [data] alone is false exactly when [data]
    is empty. *)
Theorem bool_iff_values {T : Type} `{StrictTotal T}
    (σ : list (Tree T)) (q : ref) (tree : Tree T) (data : list T) :
  σ !! q = Some tree →
  (∃ b, SearchTree_bool q σ = Done b σ ∧ (b = false ↔ iterate tree = [])) ∧
  (∃ b σ',
     (let! st := SearchTree_init data Empty in SearchTree_bool st) σ
       = Done b σ' ∧
     (b = false ↔ data = [])).
Proof.
  intros Hq. split.
  - exists (truthy tree). split; [by apply SearchTree_bool_run|].
    rewrite iterate_nil. by destruct tree.
  - exists (truthy (foldl insert Empty data)), (σ ++ [foldl insert Empty data]).
    split.
    + rewrite (bind_Done _ _ _ _ _ (SearchTree_init_run _ _ _)).
      apply SearchTree_bool_run. by apply list_lookup_middle.
    + destruct data as [|a data]; [done|]. split; [|done].
      intros Hb. assert (Ha : a ∈ iterate (foldl insert Empty (a :: data))).
      { apply elem_of_foldl_insert. right. apply list_elem_of_here. }
      destruct (foldl insert Empty (a :: data)); [|done].
      by apply elem_of_nil in Ha.
Qed.

Lemma bool_iff_values_witness :
  (∃ b, SearchTree_bool 0 [Node 4 Empty Empty] = Done b [Node 4 Empty Empty]
        ∧ (b = false ↔ iterate (Node 4 Empty Empty) = [])) ∧
  (∃ b σ',
     (let! st := SearchTree_init [] Empty in SearchTree_bool st)
       [Node 4 Empty Empty] = Done b σ' ∧
     (b = false ↔ @nil nat = [])).
Proof.
  apply (bool_iff_values [Node 4 Empty Empty] 0 (Node 4 Empty Empty) []).
  reflexivity.
Defined.

(** X19.  After [pq.insert(v)] on a queue that holds a search tree,
    [pq.min_val] is [v] when the queue was empty, and otherwise the smaller
    of [v] and the former smallest value. *)
Theorem min_val_after_insert {T : Type} `{StrictTotal T}
    (σ : list (Tree T)) (q : ref) (tree : Tree T) (v : T) :
  σ !! q = Some tree → is_bst tree = true →
  (let! _ := SearchTree_insert q v in PriorityQueue_min_val q) σ
  = Done match minimum (iterate tree) with
         | None => v
         | Some m => if ltb v m then v else m
         end
         (<[q := insert tree v]> σ).
Proof.
  intros Hq Hbst.
  rewrite (bind_Done _ _ _ _ _ (SearchTree_insert_run _ _ _ v Hq)).
  pose proof (insert_is_bst tree v Hbst) as Hbst'.
  assert (Hv : v ∈ iterate (insert tree v)) by (apply elem_of_insert; by left).
  destruct (insert tree v) as [|u l r] eqn:Hins; [by apply elem_of_nil in Hv|].
  rewrite (min_val_run _ _ u l r) by by apply lookup_set with tree.
  f_equal. apply (inj Some).
  rewrite <- (leftmost_minimum u l r Hbst'), <- Hins.
  destruct (minimum (iterate tree)) as [m|] eqn:Hmin.
  - apply minimum_Some in Hmin as [Hm Hle]. apply minimum_intro.
    + apply elem_of_insert. destruct (ltb v m); auto.
    + intros a [-> | Ha]%elem_of_insert.
      * destruct (ltb v m) eqn:Hvm; [by left|].
        destruct (ltb_cases v m) as [? | [? | ?]]; [congruence|by left|by right].
      * destruct (Hle a Ha) as [-> | Hma].
        -- destruct (ltb v m) eqn:Hvm; [by right | by left].
        -- destruct (ltb v m) eqn:Hvm; [|by right].
           right. by apply ltb_trans with m.
  - apply minimum_None, iterate_nil in Hmin. subst tree.
    reflexivity.
Qed.

Lemma min_val_after_insert_witness :
  let tree := Node 5 (Node 2 Empty Empty) (Node 8 Empty Empty) in
  (let! _ := SearchTree_insert 0 1 in PriorityQueue_min_val 0) [tree]
  = Done 1 (<[0 := insert tree 1]> [tree]).
Proof.
  intros tree.
  exact (min_val_after_insert [tree] 0 tree 1
           ltac:(reflexivity) ltac:(reflexivity)).
Defined.

(** X20.  On a queue that holds a search tree, inserting a value below all
    its values and then calling [delete_min] returns that value and leaves
    the store as it was before the two calls. *)
Theorem insert_then_delete_min {T : Type} `{StrictTotal T}
    (σ : list (Tree T)) (q : ref) (tree : Tree T) (v : T) :
  σ !! q = Some tree → is_bst tree = true →
  (∀ a, a ∈ iterate tree → ltb v a = true) →
  (let! _ := SearchTree_insert q v in PriorityQueue_delete_min q) σ
  = Done v σ.
Proof.
  intros Hq Hbst Hbelow.
  rewrite (bind_Done _ _ _ _ _ (SearchTree_insert_run _ _ _ v Hq)).
  pose proof (insert_is_bst tree v Hbst) as Hbst'.
  assert (Hv : v ∈ iterate (insert tree v)) by (apply elem_of_insert; by left).
  assert (Hnin : v ∉ iterate tree).
  { intros Hin%Hbelow. by rewrite ltb_irrefl in Hin. }
  assert (Hmin : minimum (iterate (insert tree v)) = Some v).
  { apply minimum_intro; [done|].
    intros a [-> | Ha]%elem_of_insert; [by left | right; by apply Hbelow]. }
  pose proof (remove_insert_absent tree v Hnin) as Hback.
  destruct (insert tree v) as [|u l r] eqn:Hins; [by apply elem_of_nil in Hv|].
  rewrite (leftmost_minimum u l r Hbst') in Hmin. injection Hmin as Hmin.
  rewrite (delete_min_run _ _ u l r) by by apply lookup_set with tree.
  rewrite Hmin, Hback, list_insert_insert_eq.
  by rewrite list_insert_id.
Qed.

Lemma insert_then_delete_min_witness :
  let tree := Node 5 (Node 2 Empty Empty) (Node 8 Empty Empty) in
  (let! _ := SearchTree_insert 0 1 in PriorityQueue_delete_min 0) [tree]
  = Done 1 [tree].
Proof.
  intros tree.
  apply (insert_then_delete_min [tree] 0 tree 1); [reflexivity..|].
  apply Forall_forall. repeat constructor.
Defined.
